(** * mcrpy/smooth.py: volume-conserving smoothing of multiphase microstructures

    A shallow embedding of [gaussian_smoothing], [smooth],
    [_smooth_multiphase] and [main] together with the properties of the
    smoothing routine.

    Numbers.  The arrays of the program hold float64 values.  They are
    embedded as rationals ([Q]).  The filter rounds its result, so every
    number the reconstruction step computes with is an integer; float64
    addition and subtraction are exact on integers below 2^53, hence the
    rational model and the program agree on them.

    Arrays.  An array over the spatial grid is an [ndarray]: its shape and
    its entries in row-major order.  The one-hot array of shape
    [spatial_shape + (P,)] is an [encoded]: one row of [P] indicator values
    per grid location, locations in row-major order. *)

From Stdlib Require Import ZArith QArith Qround Qabs Lia Lqa.
From stdpp Require Import base list strings gmap.

(** ** Exceptions and the two monads of the development *)

Inductive exn : Type :=
  | AssertionError
  | NotImplementedError (msg : string)
  | ValueError (msg : string).

(** A computation that returns or raises. *)
Definition res (A : Type) : Type := exn + A.

(** A computation over a mutable object of type [S] that returns or raises;
    the object survives a raise. *)
Definition st (S A : Type) : Type := S → S * res A.

Definition st_ret {S A} (a : A) : st S A := λ s, (s, inr a).
Definition st_raise {S A} (e : exn) : st S A := λ s, (s, inl e).
Definition st_bind {S A B} (m : st S A) (k : A → st S B) : st S B :=
  λ s, match m s with
       | (s', inr a) => k a s'
       | (s', inl e) => (s', inl e)
       end.
Definition st_get {S} : st S S := λ s, (s, inr s).
Definition st_put {S} (s : S) : st S unit := λ _, (s, inr tt).
Definition st_lift {S A} (r : res A) : st S A := λ s, (s, r).

Global Instance st_mret {S} : MRet (st S) := λ A, st_ret.
Global Instance st_mbind {S} : MBind (st S) := λ A B k m, st_bind m k.

Definition res_bind {A B} (m : res A) (k : A → res B) : res B :=
  match m with inr a => k a | inl e => inl e end.
Global Instance res_mret : MRet res := λ A, inr.
Global Instance res_mbind : MBind res := λ A B k m, res_bind m k.

(** A [for] loop over [l] whose body may raise. *)
Fixpoint for_each {A S} (l : list A) (body : A → S → res S) (s : S) : res S :=
  match l with
  | [] => inr s
  | a :: l' => s' ← body a s; for_each l' body s'
  end.

(** ** The numpy operations the module uses *)

Module np.

Record ndarray : Type := NDArray { shape : list nat; data : list Q }.

(** Number of entries of an array of the given shape. *)
Definition size (shp : list nat) : nat := foldr Nat.mul 1%nat shp.

Definition ones (shp : list nat) : ndarray :=
  NDArray shp (replicate (size shp) 1%Q).

(** [np.round]: to the nearest integer, a tie to the even neighbour. *)
Definition round1 (v : Q) : Q :=
  let lo := Qfloor v in
  inject_Z
    match (v - inject_Z lo ?= 1 # 2)%Q with
    | Lt => lo
    | Gt => lo + 1
    | Eq => if Z.even lo then lo else lo + 1
    end.

Definition round (a : ndarray) : ndarray :=
  NDArray (shape a) (round1 <$> data a).

Definition sum (l : list Q) : Q := foldr Qplus 0%Q l.

(** [np.average] of the entries.  Of no entries numpy returns nan, and
    [np.argmax] takes the first nan for the maximum; here the quotient by
    zero is 0, and a vector of equal averages has its maximum at index 0
    as well. *)
Definition average (l : list Q) : Q :=
  (sum l / inject_Z (Z.of_nat (length l)))%Q.

(** [np.argmax]: one left-to-right scan that moves only to a strictly
    larger entry; it raises on an empty vector. *)
Fixpoint argmax_scan (best_i : nat) (best : Q) (i : nat) (l : list Q) : nat :=
  match l with
  | [] => best_i
  | v :: t =>
      if Qle_bool v best then argmax_scan best_i best (S i) t
      else argmax_scan i v (S i) t
  end.

Definition argmax (l : list Q) : res nat :=
  match l with
  | [] => inl (ValueError "attempt to get an argmax of an empty sequence")
  | v :: t => inr (argmax_scan 0 v 1 t)
  end.

(** [a -= b] for arrays of one shape. *)
Definition isub (a b : ndarray) : res ndarray :=
  if decide (shape a = shape b ∧ length (data a) = length (data b))
  then inr (NDArray (shape a) (zip_with Qminus (data a) (data b)))
  else inl (ValueError "operands could not be broadcast together").

End np.


(** ** The one-hot array

    An array of shape [spatial + (n_phases,)]: [cells] holds, for every
    grid location in row-major order, the row of its [n_phases] indicator
    values. *)

Record encoded : Type :=
  Encoded { spatial : list nat; n_phases : nat; cells : list (list Q) }.

Definition wf_encoded (e : encoded) : Prop :=
  length (cells e) = np.size (spatial e)
  ∧ Forall (λ row, length row = n_phases e) (cells e).

(** [np.zeros(e.shape)] *)
Definition zeros_like (e : encoded) : encoded :=
  Encoded (spatial e) (n_phases e)
          (replicate (np.size (spatial e)) (replicate (n_phases e) 0%Q)).

(** [e[..., phase]] *)
Definition get_phase (e : encoded) (phase : nat) : np.ndarray :=
  np.NDArray (spatial e) ((λ row, default 0%Q (row !! phase)) <$> cells e).

(** [e[..., phase] = v] for a value of the spatial shape of [e]. *)
Definition set_phase (e : encoded) (phase : nat) (v : np.ndarray) : res encoded :=
  if decide (np.shape v = spatial e ∧ length (np.data v) = length (cells e))
  then inr (Encoded (spatial e) (n_phases e)
                    (zip_with (λ row val, <[phase:=val]> row) (cells e) (np.data v)))
  else inl (ValueError "could not broadcast input array").

(** [a.astype(np.float64)]: the entries are rationals already. *)
Definition astype_float64 (a : np.ndarray) : np.ndarray := a.

(** ** The Microstructure object *)

Inductive event : Type := ScopeEntered | ScopeExited.

(** Modelled from the spec: the class [Microstructure] of
    mcrpy/src/Microstructure.py is not among the modelled sources.  The
    object exposes [has_phases], the one-hot encoding [x] it owns and its
    [spatial_shape]; [history] records the entries and exits of the scoped
    accessor. *)
Record Microstructure : Type :=
  MkMicrostructure { has_phases : bool; x : encoded; history : list event }.

(** Modelled from the spec: [spatial_shape] is the shape of the grid without
    the phase axis. *)
Definition spatial_shape (ms : Microstructure) : list nat := spatial (x ms).

(** The handle a scope yields: [numpy()[0]] reads the encoding,
    [assign(v.reshape(...))] replaces it (the reshape only restores the
    leading axis of length one). *)
Definition numpy0 : st encoded encoded := st_get.
Definition assign (v : encoded) : st encoded unit := st_put v.

(** Modelled from the spec: [use_multiphase_encoding] yields a handle on the
    one-hot encoding for the duration of a block and writes the handle's
    content back when the block is left, also when it is left by a raise. *)
Definition use_multiphase_encoding {A}
    (block : st encoded A) : st Microstructure A :=
  λ ms,
    let entered := history ms ++ [ScopeEntered] in
    let '(x', r) := block (x ms) in
    (MkMicrostructure (has_phases ms) x' (entered ++ [ScopeExited]), r).

(** ** scipy.ndimage *)

Inductive boundary_mode : Type := Reflect | Constant | Nearest | Mirror | Wrap.

(** ** The module mcrpy/smooth.py *)

Section Smooth.

(** [scipy.ndimage.gaussian_filter(input, sigma, mode=...)] *)
Variable gaussian_filter : np.ndarray → Q → boundary_mode → np.ndarray.

Definition gaussian_smoothing (microstructure : np.ndarray) (strength : Q)
  : np.ndarray :=
  let microstructure := gaussian_filter microstructure strength Wrap in
  np.round microstructure.

Definition volume_fractions (ms_encoded : encoded) : list Q :=
  (λ phase, np.average (np.data (get_phase ms_encoded phase)))
    <$> seq 0 (n_phases ms_encoded).

(** One turn of the loop [for phase in phases] of [_smooth_multiphase]. *)
Definition smooth_phase (ms_encoded : encoded)
    (f : np.ndarray → Q → np.ndarray) (strength : Q) (largest_phase : nat)
    (phase : nat) (acc : encoded * np.ndarray) : res (encoded * np.ndarray) :=
  let '(ms_smoothed, largest_indicator_function) := acc in
  if decide (phase = largest_phase) then mret acc
  else
    ms_smoothed ←
      set_phase ms_smoothed phase
                (f (astype_float64 (get_phase ms_encoded phase)) strength);
    largest_indicator_function ←
      np.isub largest_indicator_function (get_phase ms_smoothed phase);
    mret (ms_smoothed, largest_indicator_function).

(** The handle [x] is the state of the computation; [microstructure] is
    only read, for its [spatial_shape]. *)
Definition _smooth_multiphase (microstructure : Microstructure)
    (f : np.ndarray → Q → np.ndarray) (strength : Q) : st encoded unit :=
  ms_encoded ← numpy0;
  let phases := seq 0 (n_phases ms_encoded) in
  let vfs := volume_fractions ms_encoded in
  largest_phase ← st_lift (np.argmax vfs);
  let ms_smoothed := zeros_like ms_encoded in
  let largest_indicator_function := np.ones (spatial_shape microstructure) in
  '(ms_smoothed, largest_indicator_function) ←
    st_lift (for_each phases (smooth_phase ms_encoded f strength largest_phase)
                      (ms_smoothed, largest_indicator_function));
  ms_smoothed ←
    st_lift (set_phase ms_smoothed largest_phase largest_indicator_function);
  assign ms_smoothed.

(** [smooth] returns the object it was given: the result is that object's
    final state together with the exception raised, if any. *)
Definition smooth (microstructure : Microstructure) (method : string)
    (strength : Q) : Microstructure * res unit :=
  (_ ← (if has_phases microstructure then mret tt
        else st_raise AssertionError);
   f ← (if decide (method = "gaussian") then mret gaussian_smoothing
        else st_raise (NotImplementedError
               ("Smoothing method " +:+ method
                  +:+ " was chosen, but is not implemented.")));
   use_multiphase_encoding (_smooth_multiphase microstructure f strength))
    microstructure.

End Smooth.

(** ** Python strings *)

(** [s[:n]] and [s[n:]] for [n] within the string. *)
Fixpoint string_take (n : nat) (s : string) : string :=
  match n, s with
  | S n', String c s' => String c (string_take n' s')
  | _, _ => EmptyString
  end.

Fixpoint string_drop (n : nat) (s : string) : string :=
  match n, s with
  | S n', String _ s' => string_drop n' s'
  | _, _ => s
  end.

(** [s[:-k]] for a positive [k]: the string without its last [k] characters,
    empty when the string is shorter. *)
Definition slice_to_neg (k : nat) (s : string) : string :=
  string_take (String.length s - k) s.

(** [s.endswith(suffix)] *)
Definition endswith (s suffix : string) : bool :=
  (String.length suffix <=? String.length s)%nat
  && String.eqb (string_drop (String.length s - String.length suffix) s) suffix.

(** ** The command-line entry point *)

(** The namespace argparse builds: [--strength] is declared with [type=str]
    and the float default [1.0]. *)
Record Namespace : Type :=
  MkNamespace {
    microstructure_filename : string;
    method : string;
    strength : Q + string;
    info : option string
  }.

Section Main.

Variable gaussian_filter : np.ndarray → Q → boundary_mode → np.ndarray.

(** Modelled from the spec: the content of a persisted array file, and the
    loader [Microstructure.from_npy] and the writer [to_npy] of
    mcrpy/src/Microstructure.py, which are not among the modelled sources.
    A file system maps the names of the regular files to their contents. *)
Variable npy : Type.
Variable from_npy : npy → bool → res Microstructure.
Variable to_npy : Microstructure → npy.

Definition output_filename (args : Namespace) : string :=
  let filename_additive :=
    match info args with None => "" | Some tag => "_" +:+ tag end in
  slice_to_neg 4 (microstructure_filename args)
    +:+ filename_additive +:+ "_smoothed.npy".

Definition main (args : Namespace) : st (gmap string npy) unit :=
  fs ← st_get;
  match fs !! microstructure_filename args with
  | None =>
      st_raise (ValueError ("Given file " +:+ microstructure_filename args
                              +:+ " does not exist!"))
  | Some content =>
      if negb (endswith (microstructure_filename args) ".npy")
      then st_raise (ValueError ("Given file " +:+ microstructure_filename args
                                   +:+ " should be a .npy-file!"))
      else
        ms ← st_lift (from_npy content true);
        let '(ms_smoothed, outcome) := smooth gaussian_filter ms "gaussian" 1 in
        _ ← st_lift outcome;
        let filename := output_filename args in
        st_put (<[filename := to_npy ms_smoothed]> fs)
  end.

End Main.

(** ** The reconstruction in the words of the specification

    Steps 5 and 6 of the specification: every phase but the dominant one
    gets its filtered slice, the dominant one gets one minus the sum of all
    the other smoothed slices. *)

Definition smoothed_value (f : np.ndarray → Q → np.ndarray) (strength : Q)
    (ms_encoded : encoded) (phase location : nat) : Q :=
  default 0%Q (np.data (f (get_phase ms_encoded phase) strength) !! location).

Definition other_phases (largest_phase n : nat) : list nat :=
  filter (λ phase, phase ≠ largest_phase) (seq 0 n).

Definition one_minus_others (f : np.ndarray → Q → np.ndarray) (strength : Q)
    (ms_encoded : encoded) (largest_phase location : nat) : Q :=
  (1 - np.sum ((λ phase, smoothed_value f strength ms_encoded phase location)
                 <$> other_phases largest_phase (n_phases ms_encoded)))%Q.

Definition reconstruct_by_sum (f : np.ndarray → Q → np.ndarray) (strength : Q)
    (ms_encoded : encoded) (largest_phase : nat) : encoded :=
  Encoded (spatial ms_encoded) (n_phases ms_encoded)
    ((λ location,
        (λ phase,
           if decide (phase = largest_phase)
           then one_minus_others f strength ms_encoded largest_phase location
           else smoothed_value f strength ms_encoded phase location)
          <$> seq 0 (n_phases ms_encoded))
       <$> seq 0 (length (cells ms_encoded))).

(** The same array with the dominant slice obtained the way the program
    does it: starting from one and subtracting phase after phase. *)
Definition running_complement (f : np.ndarray → Q → np.ndarray) (strength : Q)
    (ms_encoded : encoded) (largest_phase upto location : nat) : Q :=
  foldl Qminus 1%Q
        ((λ phase, smoothed_value f strength ms_encoded phase location)
           <$> other_phases largest_phase upto).

Definition partial_cells (f : np.ndarray → Q → np.ndarray) (strength : Q)
    (ms_encoded : encoded) (largest_phase upto : nat) : list (list Q) :=
  (λ location,
     (λ phase,
        if decide (phase < upto ∧ phase ≠ largest_phase)
        then smoothed_value f strength ms_encoded phase location
        else 0%Q)
       <$> seq 0 (n_phases ms_encoded))
    <$> seq 0 (length (cells ms_encoded)).

Definition reconstruct (f : np.ndarray → Q → np.ndarray) (strength : Q)
    (ms_encoded : encoded) (largest_phase : nat) : encoded :=
  Encoded (spatial ms_encoded) (n_phases ms_encoded)
    ((λ location,
        (λ phase,
           if decide (phase = largest_phase)
           then running_complement f strength ms_encoded largest_phase
                                   (n_phases ms_encoded) location
           else smoothed_value f strength ms_encoded phase location)
          <$> seq 0 (n_phases ms_encoded))
       <$> seq 0 (length (cells ms_encoded))).

(** The state of the loop of [_smooth_multiphase] once the phases below
    [upto] are done. *)
Definition loop_state (f : np.ndarray → Q → np.ndarray) (strength : Q)
    (ms_encoded : encoded) (largest_phase upto : nat) : encoded * np.ndarray :=
  (Encoded (spatial ms_encoded) (n_phases ms_encoded)
           (partial_cells f strength ms_encoded largest_phase upto),
   np.NDArray (spatial ms_encoded)
     (running_complement f strength ms_encoded largest_phase upto
        <$> seq 0 (length (cells ms_encoded)))).

(** ** Predicates of the statements *)

(** An integer-valued rational. *)
Definition integral (q : Q) : Prop := ∃ z : Z, q = inject_Z z.

(** [k] is the first index of a largest entry of [l]. *)
Definition first_maximum (l : list Q) (k : nat) : Prop :=
  ∃ m, l !! k = Some m
       ∧ (∀ j v, l !! j = Some v → (v <= m)%Q)
       ∧ (∀ j v, j < k → l !! j = Some v → (v < m)%Q).

(** The volume fraction of a phase in the words of the specification: the
    spatial average of the indicator slice of the phase, that is the sum of
    the slice over all locations divided by the number of locations. *)
Definition spatial_average (e : encoded) (phase : nat) : Q :=
  (np.sum ((λ row, default 0 (row !! phase)) <$> cells e)
   / inject_Z (Z.of_nat (length (cells e))))%Q.

(** The contract of the library filter: the result has the shape of the
    input. *)
Definition shape_preserving
    (gaussian_filter : np.ndarray → Q → boundary_mode → np.ndarray) : Prop :=
  ∀ a sigma mode,
    np.shape (gaussian_filter a sigma mode) = np.shape a
    ∧ length (np.data (gaussian_filter a sigma mode)) = length (np.data a).

(** A linear filter sends the zero field to the zero field. *)
Definition zero_preserving
    (gaussian_filter : np.ndarray → Q → boundary_mode → np.ndarray) : Prop :=
  ∀ a sigma mode,
    Forall (λ v, v == 0)%Q (np.data a) →
    Forall (λ v, v == 0)%Q (np.data (gaussian_filter a sigma mode)).

(** The row of a location that belongs to [phase]. *)
Definition indicator_row (n phase : nat) : list Q :=
  <[phase:=1%Q]> (replicate n 0%Q).

(** A one-hot encoding: every location belongs to exactly one phase. *)
Definition one_hot (e : encoded) : Prop :=
  wf_encoded e ∧ 0 < n_phases e
  ∧ Forall (λ row, ∃ phase, phase < n_phases e
                            ∧ row = indicator_row (n_phases e) phase) (cells e).

(** A uniform encoding: every location belongs to [phase]. *)
Definition uniform_encoding (e : encoded) (phase : nat) : Prop :=
  wf_encoded e ∧ phase < n_phases e
  ∧ Forall (λ row, row = indicator_row (n_phases e) phase) (cells e).

(** The sum across the phase axis is one at every location. *)
Definition conserved (e : encoded) : Prop :=
  Forall (λ row, np.sum row == 1)%Q (cells e).

(** ** A periodic filter with rational weights

    A stand-in for the library filter on concrete inputs: along every axis
    the three-tap kernel 1/4, 1/2, 1/4 with wrap-around; a non-positive
    [sigma] leaves the array as it is. *)

Module periodic.

Definition kernel : list Q := [1 # 4; 1 # 2; 1 # 4]%Q.

(** Entry [i] of the correlation of [l] with [weights] along an axis of
    length [n] and stride [stride]; [r] is the radius of the kernel. *)
Definition tap (n stride r : nat) (weights l : list Q) (i : nat) : Q :=
  let c := ((i / stride) mod n)%nat in
  np.sum (imap (λ k w,
                  let c' := ((c + n * r + k - r) mod n)%nat in
                  (w * default 0 (l !! (i - c * stride + c' * stride)%nat))%Q)
               weights).

Definition correlate1d (n stride : nat) (l : list Q) : list Q :=
  tap n stride 1 kernel l <$> seq 0 (length l).

Fixpoint correlate (shp : list nat) (l : list Q) : list Q :=
  match shp with
  | [] => l
  | n :: rest => correlate rest (correlate1d n (np.size rest) l)
  end.

Definition gaussian_filter (a : np.ndarray) (sigma : Q) (mode : boundary_mode)
  : np.ndarray :=
  if Qle_bool sigma 0 then a
  else np.NDArray (np.shape a) (Qred <$> correlate (np.shape a) (np.data a)).

(** The end-to-end example of the specification: a 4 x 4 grid with two
    phases, phase 0 on a 2 x 2 block and phase 1 on the rest. *)
Definition block_cells : list (list Q) :=
  (λ b : bool, if b then [1; 0]%Q else [0; 1]%Q)
    <$> [ true; true; false; false;
          true; true; false; false;
          false; false; false; false;
          false; false; false; false ].

Definition block : Microstructure :=
  MkMicrostructure true (Encoded [4; 4]%nat 2 block_cells) [].

(** A three-phase strip on a ring of six locations. *)
Definition strip : Microstructure :=
  MkMicrostructure true
    (Encoded [6]%nat 3
       [ [1; 0; 0]; [1; 0; 0]; [0; 1; 0]; [0; 0; 1]; [0; 0; 1]; [0; 1; 0] ]%Q)
    [].

(** One phase everywhere. *)
Definition uniform : Microstructure :=
  MkMicrostructure true
    (Encoded [2; 2]%nat 3 (replicate 4 [0; 1; 0]%Q)) [].

(** An object without phase labels. *)
Definition unlabelled : Microstructure :=
  MkMicrostructure false (Encoded [2]%nat 1 [[1]; [1]]%Q) [].

(** A file system whose files hold encodings, and a call of the entry
    point with every option given. *)
Definition from_npy (content : encoded) (use_multiphase : bool)
  : res Microstructure :=
  inr (MkMicrostructure true content []).

Definition to_npy (ms : Microstructure) : encoded := x ms.

Definition files : gmap string encoded := {[ "block.npy" := x block ]}.

Definition args : Namespace :=
  MkNamespace "block.npy" "median" (inr "3.5") (Some "run1").

(** A single phase whose indicator is not one everywhere. *)
Definition single : Microstructure :=
  MkMicrostructure true (Encoded [3]%nat 1 [[7 # 10]; [1]; [0]]%Q) [].

(** An object that has phase labels but an encoding with no phase axis
    entries. *)
Definition phaseless : Microstructure :=
  MkMicrostructure true (Encoded [2]%nat 0 [[]; []]) [].


(** A file system with a file of another kind, and calls on it. *)
Definition mixed_files : gmap string encoded :=
  {[ "block.npy" := x block; "notes.txt" := x strip ]}.

Definition args_missing : Namespace :=
  MkNamespace "absent.txt" "gaussian" (inl 1%Q) None.

Definition args_notes : Namespace :=
  MkNamespace "notes.txt" "gaussian" (inl 1%Q) None.

(** A loader that yields objects without phase labels. *)
Definition from_npy_unlabelled (content : encoded) (use_multiphase : bool)
  : res Microstructure :=
  inr (MkMicrostructure false content []).

End periodic.

(** * Properties *)

(** ** Rounding *)

Lemma round1_integer v : ∃ z : Z, np.round1 v = inject_Z z.
Proof. unfold np.round1. eauto. Qed.

Lemma round1_half v : (Qabs (np.round1 v - v) <= 1 # 2)%Q.
Proof.
  unfold np.round1.
  pose proof (Qfloor_le v) as Hlo.
  pose proof (Qlt_floor v) as Hhi.
  rewrite inject_Z_plus in Hhi. change (inject_Z 1) with 1%Q in Hhi.
  apply Qabs_Qle_condition.
  destruct (v - inject_Z (Qfloor v) ?= 1 # 2)%Q eqn:Hc.
  - apply Qeq_alt in Hc.
    destruct (Z.even (Qfloor v)); rewrite ?inject_Z_plus;
      change (inject_Z 1) with 1%Q; lra.
  - apply Qlt_alt in Hc. lra.
  - apply Qgt_alt in Hc. rewrite inject_Z_plus.
    change (inject_Z 1) with 1%Q. lra.
Qed.

Lemma inject_Z_apart (a b : Z) : a ≠ b → (1 <= Qabs (inject_Z a - inject_Z b))%Q.
Proof.
  intros Hne.
  assert (Hcase : (a + 1 <= b ∨ b + 1 <= a)%Z) by lia.
  destruct Hcase as [H | H];
    rewrite Zle_Qle, inject_Z_plus in H; change (inject_Z 1) with 1%Q in H.
  - rewrite Qabs_neg by lra. lra.
  - rewrite Qabs_pos by lra. lra.
Qed.

Lemma round1_nearest v (z : Z) :
  (Qabs (np.round1 v - v) <= Qabs (inject_Z z - v))%Q.
Proof.
  destruct (round1_integer v) as [r Hr].
  pose proof (round1_half v) as Hhalf. rewrite Hr in *.
  destruct (decide (z = r)) as [-> | Hne]; [apply Qle_refl |].
  pose proof (inject_Z_apart z r Hne) as Hap.
  pose proof (Qabs_triangle (inject_Z z - v) (v - inject_Z r)) as Htri.
  assert (Heq : (inject_Z z - v + (v - inject_Z r) == inject_Z z - inject_Z r)%Q)
    by ring.
  rewrite Heq in Htri.
  assert (Hsym : (Qabs (v - inject_Z r) == Qabs (inject_Z r - v))%Q).
  { rewrite <- Qabs_opp. apply Qabs_wd. ring. }
  rewrite Hsym in Htri. lra.
Qed.

Lemma round1_zero v : (v == 0)%Q → np.round1 v = 0%Q.
Proof.
  intros Hv. unfold np.round1.
  assert (Hf : Qfloor v = 0%Z) by (rewrite Hv; reflexivity).
  rewrite Hf.
  assert (Hc : (v - inject_Z 0 ?= 1 # 2)%Q = Lt)
    by (apply Qlt_alt; rewrite Hv; reflexivity).
  rewrite Hc. reflexivity.
Qed.

(** ** Integer-valued rationals *)

Lemma integral_minus a b : integral a → integral b → integral (a - b)%Q.
Proof.
  intros [za ->] [zb ->]. exists (za - zb)%Z.
  unfold Qminus, Qplus, Qopp, inject_Z; simpl. f_equal. lia.
Qed.

Lemma integral_plus a b : integral a → integral b → integral (a + b)%Q.
Proof.
  intros [za ->] [zb ->]. exists (za + zb)%Z.
  unfold Qplus, inject_Z; simpl. f_equal. lia.
Qed.

Lemma integral_eq a b : integral a → integral b → (a == b)%Q → a = b.
Proof.
  intros [za ->] [zb ->] H. apply (proj1 (inject_Z_injective za zb)) in H.
  by subst.
Qed.

Lemma integral_0 : integral 0%Q.
Proof. by exists 0%Z. Qed.

Lemma integral_1 : integral 1%Q.
Proof. by exists 1%Z. Qed.

Lemma integral_sum l : Forall integral l → integral (np.sum l).
Proof.
  induction 1 as [| q l Hq _ IH]; simpl; [apply integral_0 |].
  by apply integral_plus.
Qed.

Lemma integral_foldl_minus l a :
  integral a → Forall integral l → integral (foldl Qminus a l).
Proof.
  intros Ha Hl. revert a Ha.
  induction Hl as [| q l Hq _ IH]; intros a Ha; simpl; [done |].
  apply IH. by apply integral_minus.
Qed.

(** ** Sums *)

Lemma foldl_minus_sum l a : (foldl Qminus a l == a - np.sum l)%Q.
Proof.
  revert a. induction l as [| q l IH]; intros a; simpl; [ring |].
  rewrite IH. ring.
Qed.

Lemma sum_cons q l : np.sum (q :: l) = (q + np.sum l)%Q.
Proof. reflexivity. Qed.

Lemma sum_pick (g : nat → Q) (c : Q) (k : nat) (l : list nat) :
  NoDup l → k ∈ l →
  (np.sum ((λ p, if decide (p = k) then c else g p) <$> l)
   == c + np.sum (g <$> filter (λ p, p ≠ k) l))%Q.
Proof.
  assert (Hout : ∀ l', k ∉ l' →
            np.sum ((λ p, if decide (p = k) then c else g p) <$> l')
            = np.sum (g <$> filter (λ p, p ≠ k) l')).
  { induction l' as [| p l' IH]; intros Hk; [done |].
    apply not_elem_of_cons in Hk as [Hne Hk].
    rewrite filter_cons_True by done.
    rewrite !fmap_cons, !sum_cons, decide_False by done. by rewrite IH. }
  induction 1 as [| p l Hp Hnd IH]; intros Hin; [by apply elem_of_nil in Hin |].
  destruct (decide (p = k)) as [-> | Hne].
  - rewrite filter_cons_False by (intros H; by apply H).
    rewrite fmap_cons, sum_cons, decide_True by done. by rewrite (Hout l Hp).
  - apply elem_of_cons in Hin as [-> | Hin]; [done |].
    rewrite filter_cons_True by done.
    rewrite !fmap_cons, !sum_cons, decide_False by done.
    rewrite (IH Hin). ring.
Qed.

(** ** argmax *)

Lemma argmax_scan_spec (seen rest : list Q) (best_i : nat) :
  first_maximum seen best_i →
  first_maximum (seen ++ rest)
    (np.argmax_scan best_i (default 0%Q (seen !! best_i)) (length seen) rest).
Proof.
  revert seen best_i.
  induction rest as [| v rest IH]; intros seen best_i Hfm; simpl.
  { by rewrite app_nil_r. }
  destruct Hfm as (m & Hm & Hmax & Hfirst). rewrite Hm. simpl.
  replace (seen ++ v :: rest) with ((seen ++ [v]) ++ rest)
    by (by rewrite <- app_assoc).
  destruct (Qle_bool v m) eqn:Hle.
  - apply Qle_bool_iff in Hle.
    pose proof (IH (seen ++ [v]) best_i) as IH'.
    rewrite lookup_app_l, Hm in IH' by (by eapply lookup_lt_Some).
    rewrite length_app in IH'. simpl in IH'.
    replace (length seen + 1) with (S (length seen)) in IH' by lia.
    apply IH'. exists m. split_and!.
    + by rewrite lookup_app_l by (by eapply lookup_lt_Some).
    + intros j w Hj. apply lookup_app_Some in Hj as [Hj | [_ Hj]]; [by eauto |].
      apply list_lookup_singleton_Some in Hj as [_ <-]. done.
    + intros j w Hlt Hj. apply lookup_app_Some in Hj as [Hj | [Hge _]]; [by eauto |].
      apply lookup_lt_Some in Hm. lia.
  - assert (Hlt : (m < v)%Q).
    { apply Qnot_le_lt. intros H. apply Qle_bool_iff in H. congruence. }
    assert (Hv : (seen ++ [v]) !! length seen = Some v).
    { rewrite lookup_app_r by lia. by rewrite Nat.sub_diag. }
    pose proof (IH (seen ++ [v]) (length seen)) as IH'.
    rewrite Hv in IH'. rewrite length_app in *. simpl in IH'.
    replace (length seen + 1) with (S (length seen)) in * by lia.
    apply IH'. exists v. split_and!; [done | |].
    + intros j w Hj. apply lookup_app_Some in Hj as [Hj | [_ Hj]].
      * apply Qlt_le_weak. eapply Qle_lt_trans; [by eapply Hmax | done].
      * apply list_lookup_singleton_Some in Hj as [_ <-]. apply Qle_refl.
    + intros j w Hj Hw. rewrite lookup_app_l in Hw by done.
      eapply Qle_lt_trans; [by eapply Hmax | done].
Qed.

Lemma argmax_first_maximum (l : list Q) :
  l ≠ [] → ∃ k, np.argmax l = inr k ∧ first_maximum l k.
Proof.
  destruct l as [| v t]; [done |]. intros _. eexists. split; [done |].
  apply (argmax_scan_spec [v] t 0).
  exists v. split_and!; [done | |].
  - intros j w Hj. apply list_lookup_singleton_Some in Hj as [_ <-].
    apply Qle_refl.
  - intros j w Hj. lia.
Qed.

Lemma first_maximum_lt l k : first_maximum l k → k < length l.
Proof. intros (m & Hm & _). by eapply lookup_lt_Some. Qed.

Lemma first_maximum_unique l k k' :
  first_maximum l k → first_maximum l k' → k = k'.
Proof.
  intros (m & Hm & Hmax & Hfirst) (m' & Hm' & Hmax' & Hfirst').
  destruct (Nat.lt_trichotomy k k') as [Hlt | [-> | Hlt]]; [| done |].
  - pose proof (Hfirst' _ _ Hlt Hm). pose proof (Hmax _ _ Hm'). lra.
  - pose proof (Hfirst _ _ Hlt Hm'). pose proof (Hmax' _ _ Hm). lra.
Qed.

(** ** Arrays as tabulated functions *)

Lemma tabulate_ext {A} (g h : nat → A) (n : nat) :
  (∀ i, i < n → g i = h i) → g <$> seq 0 n = h <$> seq 0 n.
Proof.
  intros Hgh. apply list_fmap_ext. intros i k Hk.
  apply lookup_seq in Hk as [-> Hi]. by apply Hgh.
Qed.

Lemma tabulate_const {A} (c : A) (n : nat) :
  (λ _, c) <$> seq 0 n = replicate n c.
Proof.
  apply list_eq. intros i. rewrite list_lookup_fmap.
  destruct (decide (i < n)) as [Hi | Hi].
  - by rewrite lookup_seq_lt, lookup_replicate_2 by done.
  - rewrite lookup_seq_ge by lia. symmetry.
    apply lookup_replicate_None. lia.
Qed.

Lemma tabulate_lookup {A} (g : nat → A) (n i : nat) :
  i < n → (g <$> seq 0 n) !! i = Some (g i).
Proof. intros Hi. by rewrite list_lookup_fmap, lookup_seq_lt by done. Qed.

Lemma tabulate_self (l : list Q) :
  l = (λ i, default 0%Q (l !! i)) <$> seq 0 (length l).
Proof.
  apply list_eq. intros i. rewrite list_lookup_fmap.
  destruct (decide (i < length l)) as [Hi | Hi].
  - rewrite lookup_seq_lt by done. simpl.
    destruct (lookup_lt_is_Some_2 l i Hi) as [v Hv]. by rewrite Hv.
  - by rewrite lookup_seq_ge, lookup_ge_None_2 by lia.
Qed.

Lemma tabulate_zip {A B C} (h : A → B → C) (g1 : nat → A) (g2 : nat → B) n :
  zip_with h (g1 <$> seq 0 n) (g2 <$> seq 0 n)
  = (λ i, h (g1 i) (g2 i)) <$> seq 0 n.
Proof. by rewrite zip_with_fmap_l, zip_with_fmap_r, zip_with_diag. Qed.

Lemma tabulate_insert {A} (g : nat → A) (n k : nat) (v : A) :
  <[k:=v]> (g <$> seq 0 n)
  = (λ p, if decide (p = k) then v else g p) <$> seq 0 n.
Proof.
  apply list_eq. intros i.
  destruct (decide (i < n)) as [Hi | Hi].
  - rewrite (tabulate_lookup _ n i Hi).
    destruct (decide (i = k)) as [-> | Hne].
    + rewrite list_lookup_insert_eq; [done |].
      by rewrite length_fmap, length_seq.
    + by rewrite list_lookup_insert_ne, tabulate_lookup by done.
  - rewrite !lookup_ge_None_2; [done | |];
      rewrite ?length_insert, length_fmap, length_seq; lia.
Qed.

Lemma for_each_app {A S} (l1 l2 : list A) (body : A → S → res S) (s : S) :
  for_each (l1 ++ l2) body s = (s' ← for_each l1 body s; for_each l2 body s').
Proof.
  revert s. induction l1 as [| a l1 IH]; intros s; simpl; [done |].
  destruct (body a s) as [e | s']; simpl; [done |]. apply IH.
Qed.

Lemma for_each_singleton {A S} (a : A) (body : A → S → res S) (s : S) :
  for_each [a] body s = body a s.
Proof. simpl. by destruct (body a s). Qed.

Lemma other_phases_S largest_phase k :
  other_phases largest_phase (S k)
  = other_phases largest_phase k
      ++ (if decide (k = largest_phase) then [] else [k]).
Proof.
  unfold other_phases. rewrite seq_S, filter_app. simpl. f_equal.
  destruct (decide (k = largest_phase)) as [-> | Hne].
  - by rewrite filter_cons_False by (intros H; by apply H).
  - by rewrite filter_cons_True by done.
Qed.

(** ** The loop of [_smooth_multiphase] *)

Section Reconstruction.

Variable f : np.ndarray → Q → np.ndarray.
Variable strength : Q.
Variable ms_encoded : encoded.
Variable largest_phase : nat.

Hypothesis f_shape : ∀ phase,
  phase < n_phases ms_encoded →
  np.shape (f (get_phase ms_encoded phase) strength) = spatial ms_encoded
  ∧ length (np.data (f (get_phase ms_encoded phase) strength))
    = length (cells ms_encoded).

Local Abbreviation state_at := (loop_state f strength ms_encoded largest_phase).

Lemma smooth_phase_step (phase : nat) :
  phase < n_phases ms_encoded →
  smooth_phase ms_encoded f strength largest_phase phase (state_at phase)
  = inr (state_at (S phase)).
Proof.
  intros Hp. unfold smooth_phase, state_at.
  destruct (decide (phase = largest_phase)) as [-> | Hne].
  - simpl. do 2 f_equal.
    + unfold partial_cells. f_equal.
      apply tabulate_ext; intros i _. apply tabulate_ext; intros p _.
      repeat case_decide; done || lia.
    + f_equal. apply tabulate_ext; intros i _.
      unfold running_complement.
      by rewrite other_phases_S, decide_True, app_nil_r by done.
  - destruct (f_shape phase Hp) as [Hshape Hlen].
    unfold astype_float64, set_phase. simpl.
    rewrite decide_True
      by (unfold partial_cells; by rewrite length_fmap, length_seq).
    simpl.
    assert (Hcells :
      zip_with (λ row val, <[phase:=val]> row)
        (partial_cells f strength ms_encoded largest_phase phase)
        (np.data (f (get_phase ms_encoded phase) strength))
      = partial_cells f strength ms_encoded largest_phase (S phase)).
    { rewrite (tabulate_self (np.data (f (get_phase ms_encoded phase) strength))).
      rewrite Hlen. unfold partial_cells. rewrite tabulate_zip.
      apply tabulate_ext; intros i _. rewrite tabulate_insert.
      apply tabulate_ext; intros p _. unfold smoothed_value.
      repeat case_decide; subst; done || lia. }
    rewrite Hcells. unfold np.isub, get_phase. simpl.
    rewrite decide_True
      by (unfold partial_cells; by rewrite !length_fmap, !length_seq).
    simpl. do 3 f_equal.
    unfold partial_cells. rewrite <- list_fmap_compose, tabulate_zip.
    apply tabulate_ext; intros i _. simpl.
    rewrite tabulate_lookup by done. simpl.
    rewrite decide_True by (split; [lia | done]).
    unfold running_complement.
    by rewrite other_phases_S, decide_False, fmap_app, foldl_app by done.
Qed.

Lemma for_each_phase_upto (upto : nat) :
  upto ≤ n_phases ms_encoded →
  for_each (seq 0 upto) (smooth_phase ms_encoded f strength largest_phase)
           (state_at 0)
  = inr (state_at upto).
Proof.
  induction upto as [| k IH]; intros Hk; [done |].
  rewrite seq_S, for_each_app, IH by lia.
  change (for_each [0 + k] (smooth_phase ms_encoded f strength largest_phase)
                   (state_at k) = inr (state_at (S k))).
  rewrite for_each_singleton. apply smooth_phase_step. lia.
Qed.

Lemma final_assignment :
  set_phase (state_at (n_phases ms_encoded)).1 largest_phase
            (state_at (n_phases ms_encoded)).2
  = inr (reconstruct f strength ms_encoded largest_phase).
Proof.
  unfold set_phase, state_at. simpl.
  rewrite decide_True
    by (unfold partial_cells; by rewrite !length_fmap, !length_seq).
  unfold reconstruct, partial_cells. do 2 f_equal.
  rewrite tabulate_zip. apply tabulate_ext; intros i _.
  rewrite tabulate_insert. apply tabulate_ext; intros p Hp.
  repeat case_decide; done || lia.
Qed.

End Reconstruction.

(** ** One run of [_smooth_multiphase] and of [smooth] *)

Lemma loop_state_initial f strength ms_encoded largest_phase microstructure :
  wf_encoded ms_encoded →
  spatial_shape microstructure = spatial ms_encoded →
  (zeros_like ms_encoded, np.ones (spatial_shape microstructure))
  = loop_state f strength ms_encoded largest_phase 0.
Proof.
  intros [Hlen _] Hshape. unfold loop_state, zeros_like, np.ones.
  rewrite Hshape, <- Hlen. f_equal; f_equal.
  - unfold partial_cells. rewrite <- tabulate_const. apply tabulate_ext.
    intros i _. rewrite <- tabulate_const. apply tabulate_ext.
    intros p _. rewrite decide_False; [done | lia].
  - by rewrite <- tabulate_const.
Qed.

Lemma volume_fractions_length e : length (volume_fractions e) = n_phases e.
Proof. unfold volume_fractions. by rewrite length_fmap, length_seq. Qed.

Lemma smooth_multiphase_run microstructure f strength ms_encoded :
  wf_encoded ms_encoded →
  0 < n_phases ms_encoded →
  spatial_shape microstructure = spatial ms_encoded →
  (∀ phase, phase < n_phases ms_encoded →
     np.shape (f (get_phase ms_encoded phase) strength) = spatial ms_encoded
     ∧ length (np.data (f (get_phase ms_encoded phase) strength))
       = length (cells ms_encoded)) →
  ∃ largest_phase,
    np.argmax (volume_fractions ms_encoded) = inr largest_phase
    ∧ first_maximum (volume_fractions ms_encoded) largest_phase
    ∧ _smooth_multiphase microstructure f strength ms_encoded
      = (reconstruct f strength ms_encoded largest_phase, inr tt).
Proof.
  intros Hwf HP Hshape Hf.
  destruct (argmax_first_maximum (volume_fractions ms_encoded))
    as (largest_phase & Harg & Hfm).
  { intros Hnil. pose proof (volume_fractions_length ms_encoded) as Hl.
    rewrite Hnil in Hl. simpl in Hl. lia. }
  exists largest_phase. split_and!; [done | done |].
  unfold _smooth_multiphase, numpy0, assign, st_get, st_put, st_lift.
  unfold mbind, st_mbind, st_bind. rewrite Harg.
  rewrite (loop_state_initial f strength ms_encoded largest_phase) by done.
  rewrite (for_each_phase_upto f strength ms_encoded largest_phase Hf) by done.
  pose proof (final_assignment f strength ms_encoded largest_phase) as Hfin.
  destruct (loop_state f strength ms_encoded largest_phase
                       (n_phases ms_encoded)) as [sm lif].
  simpl in Hfin. by rewrite Hfin.
Qed.

Lemma gaussian_smoothing_shape gaussian_filter a strength :
  shape_preserving gaussian_filter →
  np.shape (gaussian_smoothing gaussian_filter a strength) = np.shape a
  ∧ length (np.data (gaussian_smoothing gaussian_filter a strength))
    = length (np.data a).
Proof.
  intros Hgf. destruct (Hgf a strength Wrap) as [Hs Hl].
  unfold gaussian_smoothing, np.round. simpl. by rewrite length_fmap.
Qed.

Lemma smooth_gaussian_run gaussian_filter microstructure strength :
  shape_preserving gaussian_filter →
  has_phases microstructure = true →
  wf_encoded (x microstructure) →
  0 < n_phases (x microstructure) →
  ∃ largest_phase,
    np.argmax (volume_fractions (x microstructure)) = inr largest_phase
    ∧ first_maximum (volume_fractions (x microstructure)) largest_phase
    ∧ smooth gaussian_filter microstructure "gaussian" strength
      = (MkMicrostructure true
           (reconstruct (gaussian_smoothing gaussian_filter) strength
                        (x microstructure) largest_phase)
           ((history microstructure ++ [ScopeEntered]) ++ [ScopeExited]),
         inr tt).
Proof.
  intros Hgf Hph Hwf HP.
  destruct (smooth_multiphase_run microstructure
              (gaussian_smoothing gaussian_filter) strength (x microstructure))
    as (largest_phase & Harg & Hfm & Hrun); [done | done | done | |].
  { intros phase _.
    destruct (gaussian_smoothing_shape gaussian_filter
                (get_phase (x microstructure) phase) strength Hgf) as [Hs Hl].
    rewrite Hs, Hl. unfold get_phase. simpl. by rewrite length_fmap. }
  exists largest_phase. split_and!; [done | done |].
  unfold smooth. rewrite Hph.
  unfold mbind, st_mbind, st_bind, mret, st_mret, st_ret.
  rewrite decide_True by done.
  unfold use_multiphase_encoding. rewrite Hrun. by rewrite Hph.
Qed.

(** ** The reconstructed array *)

Lemma running_complement_sum f strength ms_encoded largest_phase location :
  (running_complement f strength ms_encoded largest_phase
                      (n_phases ms_encoded) location
   == one_minus_others f strength ms_encoded largest_phase location)%Q.
Proof. unfold running_complement, one_minus_others. apply foldl_minus_sum. Qed.

Lemma reconstruct_conserved f strength ms_encoded largest_phase :
  largest_phase < n_phases ms_encoded →
  conserved (reconstruct f strength ms_encoded largest_phase).
Proof.
  intros HL. unfold conserved, reconstruct. simpl.
  apply Forall_fmap, Forall_forall. intros location _. simpl.
  rewrite (sum_pick _ _ largest_phase (seq 0 (n_phases ms_encoded)));
    [| apply NoDup_seq | apply elem_of_seq; lia].
  rewrite running_complement_sum. unfold one_minus_others, other_phases. ring.
Qed.

Lemma reconstruct_wf f strength ms_encoded largest_phase :
  wf_encoded ms_encoded →
  wf_encoded (reconstruct f strength ms_encoded largest_phase).
Proof.
  intros [Hlen _]. split; simpl.
  - by rewrite length_fmap, length_seq.
  - apply Forall_fmap, Forall_forall. intros location _. simpl.
    by rewrite length_fmap, length_seq.
Qed.

Lemma reconstruct_phase f strength ms_encoded largest_phase phase :
  phase < n_phases ms_encoded →
  phase ≠ largest_phase →
  np.shape (f (get_phase ms_encoded phase) strength) = spatial ms_encoded →
  length (np.data (f (get_phase ms_encoded phase) strength))
  = length (cells ms_encoded) →
  get_phase (reconstruct f strength ms_encoded largest_phase) phase
  = f (get_phase ms_encoded phase) strength.
Proof.
  intros Hp Hne Hshape Hlen.
  destruct (f (get_phase ms_encoded phase) strength) as [shp dat] eqn:Hf.
  simpl in *. unfold get_phase, reconstruct. simpl. subst shp. f_equal.
  rewrite <- list_fmap_compose.
  etrans; [| symmetry; apply tabulate_self]. rewrite Hlen.
  apply tabulate_ext. intros location Hloc. simpl.
  rewrite tabulate_lookup, decide_False by done. simpl.
  unfold smoothed_value. by rewrite Hf.
Qed.

Lemma reconstruct_largest f strength ms_encoded largest_phase :
  largest_phase < n_phases ms_encoded →
  get_phase (reconstruct f strength ms_encoded largest_phase) largest_phase
  = np.NDArray (spatial ms_encoded)
      (running_complement f strength ms_encoded largest_phase
                          (n_phases ms_encoded)
         <$> seq 0 (length (cells ms_encoded))).
Proof.
  intros HL. unfold get_phase, reconstruct. simpl. f_equal.
  rewrite <- list_fmap_compose. apply tabulate_ext. intros location _. simpl.
  by rewrite tabulate_lookup, decide_True by done.
Qed.

(** *** With the rounding filter every entry is an integer *)

Lemma smoothed_value_integral gaussian_filter strength ms_encoded phase location :
  integral (smoothed_value (gaussian_smoothing gaussian_filter) strength
                           ms_encoded phase location).
Proof.
  unfold smoothed_value, gaussian_smoothing, np.round. simpl.
  rewrite list_lookup_fmap.
  destruct (np.data _ !! location); simpl;
    [apply round1_integer | apply integral_0].
Qed.

Lemma running_complement_integral gaussian_filter strength ms_encoded
    largest_phase upto location :
  integral (running_complement (gaussian_smoothing gaussian_filter) strength
                               ms_encoded largest_phase upto location).
Proof.
  unfold running_complement.
  apply integral_foldl_minus; [apply integral_1 |].
  apply Forall_fmap, Forall_forall. intros phase _.
  apply smoothed_value_integral.
Qed.

Lemma one_minus_others_integral gaussian_filter strength ms_encoded
    largest_phase location :
  integral (one_minus_others (gaussian_smoothing gaussian_filter) strength
                             ms_encoded largest_phase location).
Proof.
  unfold one_minus_others.
  apply integral_minus; [apply integral_1 |]. apply integral_sum.
  apply Forall_fmap, Forall_forall. intros phase _.
  apply smoothed_value_integral.
Qed.

Lemma reconstruct_integral gaussian_filter strength ms_encoded largest_phase :
  Forall (Forall integral)
    (cells (reconstruct (gaussian_smoothing gaussian_filter) strength
                        ms_encoded largest_phase)).
Proof.
  unfold reconstruct. simpl.
  apply Forall_fmap, Forall_forall. intros location _.
  apply Forall_fmap, Forall_forall. intros phase _. simpl.
  case_decide;
    [apply running_complement_integral | apply smoothed_value_integral].
Qed.

Lemma reconstruct_gaussian_by_sum gaussian_filter strength ms_encoded
    largest_phase :
  reconstruct (gaussian_smoothing gaussian_filter) strength ms_encoded
              largest_phase
  = reconstruct_by_sum (gaussian_smoothing gaussian_filter) strength ms_encoded
                       largest_phase.
Proof.
  unfold reconstruct, reconstruct_by_sum. f_equal.
  apply tabulate_ext. intros location _.
  apply tabulate_ext. intros phase _.
  case_decide; [| done].
  apply integral_eq;
    [apply running_complement_integral | apply one_minus_others_integral
    | apply running_complement_sum].
Qed.

(** ** One-hot and uniform encodings *)

Lemma indicator_row_tabulate n phase :
  indicator_row n phase
  = (λ p, if decide (p = phase) then 1%Q else 0%Q) <$> seq 0 n.
Proof.
  unfold indicator_row. by rewrite <- tabulate_insert, tabulate_const.
Qed.

Lemma one_hot_well_formed e : one_hot e → wf_encoded e ∧ 0 < n_phases e.
Proof. intros (Hwf & HP & _). done. Qed.

Lemma uniform_one_hot e phase : uniform_encoding e phase → one_hot e.
Proof.
  intros (Hwf & Hp & Hrows). split_and!; [done | lia |].
  eapply Forall_impl; [exact Hrows |]. intros row ->. eauto.
Qed.

Lemma one_hot_conserved e : one_hot e → conserved e.
Proof.
  intros (_ & _ & Hrows). unfold conserved.
  eapply Forall_impl; [exact Hrows |]. intros row (phase & Hp & ->). simpl.
  rewrite indicator_row_tabulate.
  rewrite (sum_pick (λ _, 0%Q) 1%Q phase (seq 0 (n_phases e)));
    [| apply NoDup_seq | apply elem_of_seq; lia].
  assert (Hz : ∀ l : list nat, (np.sum ((λ _, 0%Q) <$> l) == 0)%Q).
  { induction l as [| a l IH]; [reflexivity |].
    rewrite fmap_cons, sum_cons, IH. ring. }
  rewrite Hz. ring.
Qed.

Example block_is_one_hot : one_hot (x periodic.block).
Proof.
  split_and!; [split; [reflexivity | repeat constructor] | simpl; lia |].
  unfold periodic.block, periodic.block_cells. simpl.
  repeat (constructor;
          [first [ by (exists 0; split; [lia | reflexivity])
                 | by (exists 1; split; [lia | reflexivity]) ] |]).
  constructor.
Qed.

Lemma uniform_cells e phase :
  uniform_encoding e phase →
  cells e = replicate (length (cells e)) (indicator_row (n_phases e) phase).
Proof.
  intros (_ & _ & Hrows). symmetry. apply replicate_as_Forall_2; [done |].
  eapply Forall_impl; [exact Hrows |]. by intros row ->.
Qed.

Lemma uniform_get_phase e phase p :
  uniform_encoding e phase → p < n_phases e →
  np.data (get_phase e p)
  = replicate (length (cells e)) (if decide (p = phase) then 1%Q else 0%Q).
Proof.
  intros Hu Hp. unfold get_phase. simpl.
  rewrite (uniform_cells e phase Hu) at 1.
  rewrite fmap_replicate, indicator_row_tabulate.
  by rewrite tabulate_lookup by done.
Qed.

Lemma foldl_minus_zeros l : Forall (λ v, v = 0%Q) l → foldl Qminus 1%Q l = 1%Q.
Proof. induction 1 as [| v l -> _ IH]; [done |]. simpl. exact IH. Qed.

Lemma uniform_smoothed_value gaussian_filter strength e phase p location :
  zero_preserving gaussian_filter →
  uniform_encoding e phase → p < n_phases e → p ≠ phase →
  smoothed_value (gaussian_smoothing gaussian_filter) strength e p location
  = 0%Q.
Proof.
  intros Hz Hu Hp Hne.
  unfold smoothed_value, gaussian_smoothing, np.round. simpl.
  rewrite list_lookup_fmap.
  destruct (np.data _ !! location) as [v |] eqn:Hv; simpl; [| done].
  apply round1_zero.
  eapply (Forall_lookup_1 (λ v, v == 0)%Q); [| exact Hv].
  apply Hz. rewrite (uniform_get_phase e phase p Hu Hp).
  rewrite decide_False by done. by apply Forall_replicate.
Qed.

Lemma uniform_reconstruct gaussian_filter strength e phase :
  zero_preserving gaussian_filter →
  uniform_encoding e phase →
  reconstruct (gaussian_smoothing gaussian_filter) strength e phase = e.
Proof.
  intros Hz Hu. unfold reconstruct.
  destruct e as [shp n rows] eqn:He. simpl. f_equal.
  rewrite <- He in Hu. pose proof (uniform_cells e phase Hu) as Hcells.
  rewrite He in Hcells. simpl in Hcells. rewrite Hcells at 2.
  rewrite <- tabulate_const. apply tabulate_ext. intros location _.
  rewrite indicator_row_tabulate. apply tabulate_ext. intros p Hp.
  case_decide as Hd.
  - subst p. unfold running_complement. apply foldl_minus_zeros.
    apply Forall_fmap, Forall_forall. intros q Hq. simpl.
    apply list_elem_of_filter in Hq as [Hne Hq]. apply elem_of_seq in Hq.
    rewrite <- He. apply (uniform_smoothed_value _ _ _ phase); try done.
    rewrite He. simpl. lia.
  - rewrite <- He. apply (uniform_smoothed_value _ _ _ phase); try done.
    by rewrite He.
Qed.

Lemma sum_replicate n c : (np.sum (replicate n c) == inject_Z (Z.of_nat n) * c)%Q.
Proof.
  induction n as [| n IH]; [simpl; ring |].
  rewrite Nat2Z.inj_succ, <- Z.add_1_r, inject_Z_plus.
  change (replicate (S n) c) with (c :: replicate n c).
  rewrite sum_cons, IH. change (inject_Z 1) with 1%Q. ring.
Qed.

Lemma average_ones n : 0 < n → (np.average (replicate n 1%Q) == 1)%Q.
Proof.
  intros Hn. unfold np.average. rewrite sum_replicate, length_replicate.
  field. intros H. apply (proj1 (inject_Z_injective (Z.of_nat n) 0)) in H. lia.
Qed.

Lemma average_zeros n : (np.average (replicate n 0%Q) == 0)%Q.
Proof.
  unfold np.average. rewrite sum_replicate, length_replicate.
  destruct n as [| n]; [reflexivity |].
  field. intros H. apply (proj1 (inject_Z_injective (Z.of_nat (S n)) 0)) in H. lia.
Qed.

Lemma uniform_first_maximum e phase :
  uniform_encoding e phase → 0 < length (cells e) →
  first_maximum (volume_fractions e) phase.
Proof.
  intros Hu HN. pose proof Hu as (_ & Hphase & _).
  assert (Hvf : ∀ p, p < n_phases e →
            volume_fractions e !! p
            = Some (np.average (replicate (length (cells e))
                                  (if decide (p = phase) then 1%Q else 0%Q)))).
  { intros p Hp. unfold volume_fractions.
    by rewrite tabulate_lookup, (uniform_get_phase e phase p Hu Hp) by done. }
  exists (np.average (replicate (length (cells e)) 1%Q)). split_and!.
  - by rewrite Hvf, decide_True by done.
  - intros j v Hj. pose proof (lookup_lt_Some _ _ _ Hj) as Hlt.
    rewrite volume_fractions_length in Hlt. rewrite Hvf in Hj by done.
    injection Hj as <-. rewrite average_ones by done.
    case_decide; [by rewrite average_ones | by rewrite average_zeros].
  - intros j v Hlt Hj. rewrite Hvf in Hj by lia. injection Hj as <-.
    rewrite decide_False by lia. by rewrite average_ones, average_zeros.
Qed.

(** ** Strings *)

Lemma length_append (s1 s2 : string) :
  String.length (s1 +:+ s2) = String.length s1 + String.length s2.
Proof. induction s1 as [| c s1 IH]; simpl; [done | by rewrite IH]. Qed.

Lemma string_take_append (s1 s2 : string) :
  string_take (String.length s1) (s1 +:+ s2) = s1.
Proof. induction s1 as [| c s1 IH]; simpl; [by destruct s2 | by rewrite IH]. Qed.

Lemma string_drop_append (s1 s2 : string) :
  string_drop (String.length s1) (s1 +:+ s2) = s2.
Proof. induction s1 as [| c s1 IH]; simpl; [by destruct s2 | done]. Qed.

Lemma slice_to_neg_append (stem suffix : string) :
  slice_to_neg (String.length suffix) (stem +:+ suffix) = stem.
Proof.
  unfold slice_to_neg. rewrite length_append.
  replace (String.length stem + String.length suffix - String.length suffix)
    with (String.length stem) by lia.
  apply string_take_append.
Qed.

Lemma endswith_append (stem suffix : string) :
  endswith (stem +:+ suffix) suffix = true.
Proof.
  unfold endswith. rewrite length_append.
  replace (String.length stem + String.length suffix - String.length suffix)
    with (String.length stem) by lia.
  rewrite string_drop_append, String.eqb_refl, andb_true_r.
  apply Nat.leb_le. lia.
Qed.

(** ** The periodic filter keeps shapes and zero fields *)

Lemma periodic_correlate_length shp l :
  length (periodic.correlate shp l) = length l.
Proof.
  revert l. induction shp as [| n rest IH]; intros l; simpl; [done |].
  rewrite IH. unfold periodic.correlate1d. by rewrite length_fmap, length_seq.
Qed.

Lemma periodic_shape_preserving : shape_preserving periodic.gaussian_filter.
Proof.
  intros a sigma mode. unfold periodic.gaussian_filter.
  destruct (Qle_bool sigma 0); simpl; [done |].
  by rewrite length_fmap, periodic_correlate_length.
Qed.

Lemma lookup_zero (l : list Q) i :
  Forall (λ v, v == 0)%Q l → (default 0 (l !! i) == 0)%Q.
Proof.
  intros Hl. destruct (l !! i) as [v |] eqn:Hv; simpl; [| reflexivity].
  by apply (Forall_lookup_1 _ _ _ _ Hl Hv).
Qed.

Lemma periodic_correlate_zero shp l :
  Forall (λ v, v == 0)%Q l → Forall (λ v, v == 0)%Q (periodic.correlate shp l).
Proof.
  revert l. induction shp as [| n rest IH]; intros l Hl; simpl; [done |].
  apply IH. unfold periodic.correlate1d.
  apply Forall_fmap, Forall_forall. intros i _.
  unfold periodic.tap, periodic.kernel. simpl.
  rewrite !(lookup_zero l) by done. ring.
Qed.

Lemma periodic_zero_preserving : zero_preserving periodic.gaussian_filter.
Proof.
  intros a sigma mode Ha. unfold periodic.gaussian_filter.
  destruct (Qle_bool sigma 0); simpl; [done |].
  apply Forall_fmap. eapply Forall_impl;
    [by apply periodic_correlate_zero |].
  intros v Hv. simpl. by rewrite Qred_correct.
Qed.

(** * The claims *)

(** C1. Conservation: when [smooth] is run with the method "gaussian" on a
    microstructure that has phases and a well-formed encoding with at least
    one phase (every one-hot encoding is one), it completes, and in the
    encoding written back the sum across the phase axis is 1 at every
    location. *)
Theorem smooth_conserves_phase_sum gaussian_filter microstructure strength :
  shape_preserving gaussian_filter →
  has_phases microstructure = true →
  wf_encoded (x microstructure) →
  0 < n_phases (x microstructure) →
  ∃ smoothed,
    smooth gaussian_filter microstructure "gaussian" strength
    = (smoothed, inr tt)
    ∧ wf_encoded (x smoothed)
    ∧ spatial (x smoothed) = spatial (x microstructure)
    ∧ n_phases (x smoothed) = n_phases (x microstructure)
    ∧ conserved (x smoothed).
Proof.
  intros Hgf Hph Hwf HP.
  destruct (smooth_gaussian_run gaussian_filter microstructure strength)
    as (largest_phase & _ & Hfm & Hrun); [done .. |].
  eexists. split; [exact Hrun |]. simpl. split_and!; [| done | done |].
  - by apply reconstruct_wf.
  - apply reconstruct_conserved.
    apply first_maximum_lt in Hfm. by rewrite volume_fractions_length in Hfm.
Qed.

Lemma smooth_conserves_phase_sum_witness :
  ∃ smoothed,
    smooth periodic.gaussian_filter periodic.block "gaussian" 1
    = (smoothed, inr tt)
    ∧ wf_encoded (x smoothed)
    ∧ spatial (x smoothed) = spatial (x periodic.block)
    ∧ n_phases (x smoothed) = n_phases (x periodic.block)
    ∧ conserved (x smoothed).
Proof.
  apply (smooth_conserves_phase_sum periodic.gaussian_filter periodic.block 1).
  - exact periodic_shape_preserving.
  - reflexivity.
  - split; [reflexivity | repeat constructor].
  - simpl. lia.
Defined.

Lemma volume_fractions_spatial_average e :
  volume_fractions e = spatial_average e <$> seq 0 (n_phases e).
Proof.
  unfold volume_fractions. apply tabulate_ext. intros phase _.
  unfold np.average, spatial_average, get_phase. simpl.
  by rewrite length_fmap.
Qed.

Lemma first_maximum_spatial_average e largest_phase :
  first_maximum (volume_fractions e) largest_phase →
  largest_phase < n_phases e
  ∧ (∀ phase, phase < n_phases e →
       (spatial_average e phase <= spatial_average e largest_phase)%Q)
  ∧ (∀ phase, phase < largest_phase →
       (spatial_average e phase < spatial_average e largest_phase)%Q).
Proof.
  intros Hfm.
  assert (HL : largest_phase < n_phases e).
  { apply first_maximum_lt in Hfm. by rewrite volume_fractions_length in Hfm. }
  destruct Hfm as (m & Hm & Hmax & Hfirst).
  rewrite volume_fractions_spatial_average in Hm, Hmax, Hfirst.
  rewrite tabulate_lookup in Hm by done. injection Hm as <-.
  split_and!; [done | |].
  - intros phase Hp. apply (Hmax phase). by rewrite tabulate_lookup.
  - intros phase Hp. apply (Hfirst phase); [done |].
    rewrite tabulate_lookup; [done | lia].
Qed.

(** C2. The volume fractions [smooth] computes are the per-phase spatial
    averages (the sum of the slice of the phase divided by the number of
    locations); the dominant phase of the run is the index [np.argmax]
    returns on them, and it is the first index at which the largest average
    is attained: no phase has a larger average and every phase before it
    has a strictly smaller one.  Every other slice of the result is the
    filtered input slice, the slice of the dominant phase is the
    complement. *)
Theorem smooth_dominant_phase_is_first_argmax gaussian_filter microstructure
    strength :
  shape_preserving gaussian_filter →
  has_phases microstructure = true →
  wf_encoded (x microstructure) →
  0 < n_phases (x microstructure) →
  ∃ largest_phase smoothed,
    volume_fractions (x microstructure)
    = spatial_average (x microstructure)
        <$> seq 0 (n_phases (x microstructure))
    ∧ np.argmax (volume_fractions (x microstructure)) = inr largest_phase
    ∧ largest_phase < n_phases (x microstructure)
    ∧ (∀ phase, phase < n_phases (x microstructure) →
         (spatial_average (x microstructure) phase
          <= spatial_average (x microstructure) largest_phase)%Q)
    ∧ (∀ phase, phase < largest_phase →
         (spatial_average (x microstructure) phase
          < spatial_average (x microstructure) largest_phase)%Q)
    ∧ first_maximum (volume_fractions (x microstructure)) largest_phase
    ∧ smooth gaussian_filter microstructure "gaussian" strength
      = (smoothed, inr tt)
    ∧ (∀ phase, phase < n_phases (x microstructure) →
         phase ≠ largest_phase →
         get_phase (x smoothed) phase
         = gaussian_smoothing gaussian_filter
             (get_phase (x microstructure) phase) strength)
    ∧ get_phase (x smoothed) largest_phase
      = np.NDArray (spatial (x microstructure))
          (running_complement (gaussian_smoothing gaussian_filter) strength
             (x microstructure) largest_phase (n_phases (x microstructure))
             <$> seq 0 (length (cells (x microstructure)))).
Proof.
  intros Hgf Hph Hwf HP.
  destruct (smooth_gaussian_run gaussian_filter microstructure strength)
    as (largest_phase & Harg & Hfm & Hrun); [done .. |].
  destruct (first_maximum_spatial_average _ _ Hfm) as (HL & Hmax & Hfirst).
  exists largest_phase. eexists.
  split_and!;
    [apply volume_fractions_spatial_average | exact Harg | exact HL
    | exact Hmax | exact Hfirst | exact Hfm | exact Hrun | |]; simpl.
  - intros phase Hp Hne.
    destruct (gaussian_smoothing_shape gaussian_filter
                (get_phase (x microstructure) phase) strength Hgf) as [Hs Hl].
    apply reconstruct_phase; [done | done | by rewrite Hs |].
    rewrite Hl. unfold get_phase. simpl. by rewrite length_fmap.
  - by apply reconstruct_largest.
Qed.

Lemma smooth_dominant_phase_is_first_argmax_witness :
  ∃ largest_phase smoothed,
    volume_fractions (x periodic.strip)
    = spatial_average (x periodic.strip) <$> seq 0 (n_phases (x periodic.strip))
    ∧ np.argmax (volume_fractions (x periodic.strip)) = inr largest_phase
    ∧ largest_phase < n_phases (x periodic.strip)
    ∧ (∀ phase, phase < n_phases (x periodic.strip) →
         (spatial_average (x periodic.strip) phase
          <= spatial_average (x periodic.strip) largest_phase)%Q)
    ∧ (∀ phase, phase < largest_phase →
         (spatial_average (x periodic.strip) phase
          < spatial_average (x periodic.strip) largest_phase)%Q)
    ∧ first_maximum (volume_fractions (x periodic.strip)) largest_phase
    ∧ smooth periodic.gaussian_filter periodic.strip "gaussian" 1
      = (smoothed, inr tt)
    ∧ (∀ phase, phase < n_phases (x periodic.strip) →
         phase ≠ largest_phase →
         get_phase (x smoothed) phase
         = gaussian_smoothing periodic.gaussian_filter
             (get_phase (x periodic.strip) phase) 1)
    ∧ get_phase (x smoothed) largest_phase
      = np.NDArray (spatial (x periodic.strip))
          (running_complement (gaussian_smoothing periodic.gaussian_filter) 1
             (x periodic.strip) largest_phase (n_phases (x periodic.strip))
             <$> seq 0 (length (cells (x periodic.strip)))).
Proof.
  apply (smooth_dominant_phase_is_first_argmax
           periodic.gaussian_filter periodic.strip 1).
  - exact periodic_shape_preserving.
  - reflexivity.
  - split; [reflexivity | repeat constructor].
  - simpl. lia.
Defined.

(** The three phases of the strip tie at one third; the first one wins. *)
Example strip_tie_takes_first_phase :
  volume_fractions (x periodic.strip) = [2 # 6; 2 # 6; 2 # 6]%Q
  ∧ np.argmax (volume_fractions (x periodic.strip)) = inr 0.
Proof. split; reflexivity. Qed.

(** The block covers a quarter of the grid; the other phase is dominant. *)
Example block_volume_fractions :
  volume_fractions (x periodic.block) = [4 # 16; 12 # 16]%Q
  ∧ np.argmax (volume_fractions (x periodic.block)) = inr 1.
Proof. split; reflexivity. Qed.

(** C3. Refinement: the array a run of [smooth] writes back, whose dominant
    slice the program obtains by running subtraction from the all-ones
    field, is the array of the specification, whose dominant slice is one
    minus the sum of all the other smoothed slices. *)
Theorem smooth_running_subtraction_is_one_minus_sum gaussian_filter
    microstructure strength :
  shape_preserving gaussian_filter →
  has_phases microstructure = true →
  wf_encoded (x microstructure) →
  0 < n_phases (x microstructure) →
  ∃ largest_phase smoothed,
    np.argmax (volume_fractions (x microstructure)) = inr largest_phase
    ∧ smooth gaussian_filter microstructure "gaussian" strength
      = (smoothed, inr tt)
    ∧ x smoothed
      = reconstruct_by_sum (gaussian_smoothing gaussian_filter) strength
                           (x microstructure) largest_phase.
Proof.
  intros Hgf Hph Hwf HP.
  destruct (smooth_gaussian_run gaussian_filter microstructure strength)
    as (largest_phase & Harg & _ & Hrun); [done .. |].
  exists largest_phase. eexists.
  split_and!; [exact Harg | exact Hrun |]. simpl.
  apply reconstruct_gaussian_by_sum.
Qed.

Lemma smooth_running_subtraction_is_one_minus_sum_witness :
  ∃ largest_phase smoothed,
    np.argmax (volume_fractions (x periodic.strip)) = inr largest_phase
    ∧ smooth periodic.gaussian_filter periodic.strip "gaussian" 1
      = (smoothed, inr tt)
    ∧ x smoothed
      = reconstruct_by_sum (gaussian_smoothing periodic.gaussian_filter) 1
                           (x periodic.strip) largest_phase.
Proof.
  apply (smooth_running_subtraction_is_one_minus_sum
           periodic.gaussian_filter periodic.strip 1).
  - exact periodic_shape_preserving.
  - reflexivity.
  - split; [reflexivity | repeat constructor].
  - simpl. lia.
Defined.

(** C4, as amended.  On a microstructure that has phases, [smooth] with a
    method other than "gaussian" raises [NotImplementedError] with a message
    that names the method, and the object is left as it was: the scoped
    accessor is not entered.  (Without phases the assertion fails first.) *)
Theorem smooth_unknown_method gaussian_filter microstructure method strength :
  has_phases microstructure = true →
  method ≠ "gaussian" →
  smooth gaussian_filter microstructure method strength
  = (microstructure,
     inl (NotImplementedError
            ("Smoothing method " +:+ method
               +:+ " was chosen, but is not implemented."))).
Proof.
  intros Hph Hm. unfold smooth. rewrite Hph.
  unfold mbind, st_mbind, st_bind, mret, st_mret, st_ret, st_raise.
  by rewrite decide_False by done.
Qed.

Lemma smooth_unknown_method_witness :
  smooth periodic.gaussian_filter periodic.block "median" 1
  = (periodic.block,
     inl (NotImplementedError
            "Smoothing method median was chosen, but is not implemented.")).
Proof.
  apply (smooth_unknown_method periodic.gaussian_filter periodic.block
                               "median" 1).
  - reflexivity.
  - discriminate.
Defined.

(** C4 as stated fails: with a method other than "gaussian" and an object
    without phases the call ends in [AssertionError], not in
    [NotImplementedError]. *)
Lemma smooth_unknown_method_without_phases :
  "bogus" ≠ "gaussian"
  ∧ has_phases periodic.unlabelled = false
  ∧ smooth periodic.gaussian_filter periodic.unlabelled "bogus" 1
    = (periodic.unlabelled, inl AssertionError)
  ∧ ¬ (∃ msg, (smooth periodic.gaussian_filter periodic.unlabelled "bogus" 1).2
              = inl (NotImplementedError msg)).
Proof.
  split_and!; [discriminate | reflexivity | reflexivity |].
  intros [msg Hmsg]. discriminate Hmsg.
Qed.

(** C5. On a microstructure without phases [smooth] raises [AssertionError]
    whatever the method and the strength are, before anything else is done:
    the object, its encoding and the history of its accessor are as
    before. *)
Theorem smooth_requires_phases gaussian_filter microstructure method strength :
  has_phases microstructure = false →
  smooth gaussian_filter microstructure method strength
  = (microstructure, inl AssertionError).
Proof. intros Hph. unfold smooth. by rewrite Hph. Qed.

Lemma smooth_requires_phases_witness :
  smooth periodic.gaussian_filter periodic.unlabelled "gaussian" 1
  = (periodic.unlabelled, inl AssertionError).
Proof.
  apply (smooth_requires_phases periodic.gaussian_filter periodic.unlabelled
                                "gaussian" 1).
  reflexivity.
Defined.

(** X14. The rounding of [gaussian_smoothing]: the library filter is
    called with the field, [sigma = strength] and the boundary mode wrap,
    and its result is rounded entry by entry.  When the filter keeps the
    shape, the result has the shape of the field; every entry is an integer
    and no integer is nearer to the value the filter returned.  (What the
    library filter itself computes is outside this development.) *)
Theorem gaussian_smoothing_rounds_wrapped_blur gaussian_filter field strength :
  shape_preserving gaussian_filter →
  np.shape (gaussian_smoothing gaussian_filter field strength) = np.shape field
  ∧ length (np.data (gaussian_smoothing gaussian_filter field strength))
    = length (np.data field)
  ∧ np.data (gaussian_smoothing gaussian_filter field strength)
    = np.round1 <$> np.data (gaussian_filter field strength Wrap)
  ∧ Forall2 (λ rounded blurred,
               integral rounded
               ∧ ∀ z : Z, (Qabs (rounded - blurred)
                           <= Qabs (inject_Z z - blurred))%Q)
            (np.data (gaussian_smoothing gaussian_filter field strength))
            (np.data (gaussian_filter field strength Wrap)).
Proof.
  intros Hgf.
  destruct (gaussian_smoothing_shape gaussian_filter field strength Hgf)
    as [Hs Hl].
  split_and!; [done | done | done |].
  unfold gaussian_smoothing, np.round. simpl.
  apply Forall2_fmap_l, Forall_Forall2_diag, Forall_forall.
  intros v _. split; [apply round1_integer | apply round1_nearest].
Qed.

Lemma gaussian_smoothing_rounds_wrapped_blur_witness :
  let field := get_phase (x periodic.block) 0 in
  np.shape (gaussian_smoothing periodic.gaussian_filter field 1)
  = np.shape field
  ∧ length (np.data (gaussian_smoothing periodic.gaussian_filter field 1))
    = length (np.data field)
  ∧ np.data (gaussian_smoothing periodic.gaussian_filter field 1)
    = np.round1 <$> np.data (periodic.gaussian_filter field 1 Wrap)
  ∧ Forall2 (λ rounded blurred,
               integral rounded
               ∧ ∀ z : Z, (Qabs (rounded - blurred)
                           <= Qabs (inject_Z z - blurred))%Q)
            (np.data (gaussian_smoothing periodic.gaussian_filter field 1))
            (np.data (periodic.gaussian_filter field 1 Wrap)).
Proof.
  intros field.
  apply (gaussian_smoothing_rounds_wrapped_blur periodic.gaussian_filter
                                                field 1).
  exact periodic_shape_preserving.
Defined.

(** The 2 x 2 block under the periodic filter: 9/16 on the block, 3/16 and
    1/16 around it, rounded to the block itself; ties go to the even
    neighbour. *)
Example block_blurred_and_rounded :
  np.data (periodic.gaussian_filter (get_phase (x periodic.block) 0) 1 Wrap)
  = [9 # 16; 9 # 16; 3 # 16; 3 # 16;
     9 # 16; 9 # 16; 3 # 16; 3 # 16;
     3 # 16; 3 # 16; 1 # 16; 1 # 16;
     3 # 16; 3 # 16; 1 # 16; 1 # 16]%Q
  ∧ np.data (gaussian_smoothing periodic.gaussian_filter
                                (get_phase (x periodic.block) 0) 1)
    = [1; 1; 0; 0; 1; 1; 0; 0; 0; 0; 0; 0; 0; 0; 0; 0]%Q
  ∧ (np.round1 <$> [1 # 2; 3 # 2; 5 # 2; -1 # 2; -3 # 2; 7 # 4]%Q)
    = [0; 2; 2; 0; -2; 2]%Q.
Proof. split_and!; reflexivity. Qed.

(** C7. A uniform single-phase encoding is left unchanged by [smooth] with
    the method "gaussian" (a linear filter keeps the empty phases empty). *)
Theorem smooth_uniform_unchanged gaussian_filter microstructure strength phase :
  shape_preserving gaussian_filter →
  zero_preserving gaussian_filter →
  has_phases microstructure = true →
  uniform_encoding (x microstructure) phase →
  ∃ smoothed,
    smooth gaussian_filter microstructure "gaussian" strength
    = (smoothed, inr tt)
    ∧ x smoothed = x microstructure.
Proof.
  intros Hgf Hz Hph Hu. pose proof Hu as (Hwf & Hphase & _).
  destruct (smooth_gaussian_run gaussian_filter microstructure strength)
    as (largest_phase & _ & Hfm & Hrun); [done | done | done | lia |].
  eexists. split; [exact Hrun |]. simpl.
  destruct (decide (0 < length (cells (x microstructure)))) as [HN | HN].
  - rewrite (first_maximum_unique _ _ _ Hfm
               (uniform_first_maximum _ _ Hu HN)).
    by apply uniform_reconstruct.
  - unfold reconstruct. destruct (x microstructure) as [shp n rows].
    simpl in *. destruct rows; [done | simpl in HN; lia].
Qed.

Lemma smooth_uniform_unchanged_witness :
  ∃ smoothed,
    smooth periodic.gaussian_filter periodic.uniform "gaussian" 1
    = (smoothed, inr tt)
    ∧ x smoothed = x periodic.uniform.
Proof.
  apply (smooth_uniform_unchanged periodic.gaussian_filter periodic.uniform
                                  1 1).
  - exact periodic_shape_preserving.
  - exact periodic_zero_preserving.
  - reflexivity.
  - split_and!; [split; [reflexivity | repeat constructor] | simpl; lia
                | repeat constructor].
Defined.

(** C8. For an input file name [stem.npy] the entry point writes the
    smoothed microstructure to [stem], followed by an underscore and the
    info tag when one is given, followed by [_smoothed.npy]; [stem] is the
    input name without its last four characters. *)
Theorem main_output_filename gaussian_filter (npy : Type)
    (from_npy : npy → bool → res Microstructure)
    (to_npy : Microstructure → npy)
    (args : Namespace) (fs : gmap string npy) (stem : string)
    (content : npy) (ms : Microstructure) :
  microstructure_filename args = stem +:+ ".npy" →
  fs !! microstructure_filename args = Some content →
  from_npy content true = inr ms →
  shape_preserving gaussian_filter →
  has_phases ms = true →
  wf_encoded (x ms) →
  0 < n_phases (x ms) →
  slice_to_neg 4 (microstructure_filename args) = stem
  ∧ output_filename args
    = stem +:+ match info args with None => "" | Some tag => "_" +:+ tag end
           +:+ "_smoothed.npy"
  ∧ ∃ ms_smoothed,
      smooth gaussian_filter ms "gaussian" 1 = (ms_smoothed, inr tt)
      ∧ main gaussian_filter npy from_npy to_npy args fs
        = (<[stem +:+ match info args with
                      | None => ""
                      | Some tag => "_" +:+ tag
                      end +:+ "_smoothed.npy" := to_npy ms_smoothed]> fs,
           inr tt).
Proof.
  intros Hname Hfile Hload Hgf Hph Hwf HP.
  assert (Hstem : slice_to_neg 4 (microstructure_filename args) = stem).
  { rewrite Hname. apply (slice_to_neg_append stem ".npy"). }
  assert (Hout : output_filename args
                 = stem +:+ match info args with
                            | None => ""
                            | Some tag => "_" +:+ tag
                            end +:+ "_smoothed.npy").
  { unfold output_filename. by rewrite Hstem. }
  split_and!; [done | done |].
  destruct (smooth_gaussian_run gaussian_filter ms 1)
    as (largest_phase & _ & _ & Hrun); [done .. |].
  eexists. split; [exact Hrun |].
  unfold main, st_get, st_lift, st_put.
  unfold mbind, st_mbind, st_bind. rewrite Hfile.
  assert (Hends : endswith (microstructure_filename args) ".npy" = true)
    by (rewrite Hname; apply endswith_append).
  rewrite Hends. simpl. rewrite Hload, Hrun. by rewrite Hout.
Qed.

Lemma main_output_filename_witness :
  slice_to_neg 4 "block.npy" = "block"
  ∧ output_filename periodic.args = "block_run1_smoothed.npy"
  ∧ ∃ ms_smoothed,
      smooth periodic.gaussian_filter
             (MkMicrostructure true (x periodic.block) []) "gaussian" 1
      = (ms_smoothed, inr tt)
      ∧ main periodic.gaussian_filter encoded periodic.from_npy periodic.to_npy
             periodic.args periodic.files
        = (<["block_run1_smoothed.npy" := periodic.to_npy ms_smoothed]>
             periodic.files,
           inr tt).
Proof.
  apply (main_output_filename periodic.gaussian_filter encoded
           periodic.from_npy periodic.to_npy periodic.args periodic.files
           "block" (x periodic.block)
           (MkMicrostructure true (x periodic.block) [])).
  - reflexivity.
  - reflexivity.
  - reflexivity.
  - exact periodic_shape_preserving.
  - reflexivity.
  - split; [reflexivity | repeat constructor].
  - simpl. lia.
Defined.

(** Without an info tag nothing is inserted; a name shorter than the
    extension has nothing left. *)
Example output_filename_without_tag :
  output_filename (MkNamespace "grain.npy" "gaussian" (inl 1%Q) None)
  = "grain_smoothed.npy"
  ∧ slice_to_neg 4 "npy" = "".
Proof. split; reflexivity. Qed.


(** A method that [smooth] itself rejects goes through the entry point. *)
Example main_accepts_unknown_method :
  (smooth periodic.gaussian_filter periodic.block "median" 1).2
  = inl (NotImplementedError
           "Smoothing method median was chosen, but is not implemented.")
  ∧ (main periodic.gaussian_filter encoded periodic.from_npy periodic.to_npy
          periodic.args periodic.files).2 = inr tt.
Proof. split; reflexivity. Qed.

(** C10. After [smooth] with the method "gaussian" every entry of the
    encoding is an integer, those of the filtered slices because the filter
    rounds and those of the complement slice as differences of integers,
    and the sum across the phases is exactly 1 at every location. *)
Theorem smooth_output_integral gaussian_filter microstructure strength :
  shape_preserving gaussian_filter →
  has_phases microstructure = true →
  wf_encoded (x microstructure) →
  0 < n_phases (x microstructure) →
  ∃ smoothed,
    smooth gaussian_filter microstructure "gaussian" strength
    = (smoothed, inr tt)
    ∧ (∀ phase, Forall integral (np.data (get_phase (x smoothed) phase)))
    ∧ Forall (Forall integral) (cells (x smoothed))
    ∧ Forall (λ row, np.sum row = 1%Q) (cells (x smoothed)).
Proof.
  intros Hgf Hph Hwf HP.
  destruct (smooth_gaussian_run gaussian_filter microstructure strength)
    as (largest_phase & _ & Hfm & Hrun); [done .. |].
  eexists. split; [exact Hrun |]. simpl.
  pose proof (reconstruct_integral gaussian_filter strength
                (x microstructure) largest_phase) as Hint.
  split_and!; [| exact Hint |].
  - intros phase. apply Forall_fmap.
    eapply Forall_impl; [exact Hint |]. intros row Hrow. simpl.
    destruct (row !! phase) as [v |] eqn:Hv; simpl; [| apply integral_0].
    by apply (Forall_lookup_1 _ _ _ _ Hrow Hv).
  - assert (HL : largest_phase < n_phases (x microstructure)).
    { apply first_maximum_lt in Hfm.
      by rewrite volume_fractions_length in Hfm. }
    pose proof (reconstruct_conserved (gaussian_smoothing gaussian_filter)
                  strength (x microstructure) largest_phase HL) as Hsum.
    unfold conserved in Hsum.
    apply Forall_forall. intros row Hrow.
    apply integral_eq; [| apply integral_1 |].
    + apply integral_sum. by apply (proj1 (Forall_forall _ _) Hint).
    + by apply (proj1 (Forall_forall _ _) Hsum).
Qed.

Lemma smooth_output_integral_witness :
  ∃ smoothed,
    smooth periodic.gaussian_filter periodic.strip "gaussian" 1
    = (smoothed, inr tt)
    ∧ (∀ phase, Forall integral (np.data (get_phase (x smoothed) phase)))
    ∧ Forall (Forall integral) (cells (x smoothed))
    ∧ Forall (λ row, np.sum row = 1%Q) (cells (x smoothed)).
Proof.
  apply (smooth_output_integral periodic.gaussian_filter periodic.strip 1).
  - exact periodic_shape_preserving.
  - reflexivity.
  - split; [reflexivity | repeat constructor].
  - simpl. lia.
Defined.


(** * Further properties of the module *)

(** ** More on strings *)

Lemma append_cons (c : Ascii.ascii) (a b : string) :
  String c a +:+ b = String c (a +:+ b).
Proof. reflexivity. Qed.

Lemma append_assoc (a b c : string) : (a +:+ b) +:+ c = a +:+ (b +:+ c).
Proof.
  induction a as [| ch a IH]; [done |]. by rewrite !append_cons, IH.
Qed.

Lemma string_take_drop (n : nat) (s : string) :
  string_take n s +:+ string_drop n s = s.
Proof.
  revert s. induction n as [| n IH]; intros [| c s]; simpl; try done.
  by rewrite append_cons, IH.
Qed.

Lemma length_string_take (n : nat) (s : string) :
  String.length (string_take n s) = n `min` String.length s.
Proof.
  revert s. induction n as [| n IH]; intros [| c s]; simpl; try done.
  by rewrite IH.
Qed.

Lemma endswith_split (s suffix : string) :
  endswith s suffix = true →
  s = slice_to_neg (String.length suffix) s +:+ suffix.
Proof.
  unfold endswith, slice_to_neg. intros H.
  apply andb_true_iff in H as [_ H]. apply String.eqb_eq in H.
  pose proof (string_take_drop (String.length s - String.length suffix) s)
    as Htd.
  rewrite H in Htd. by symmetry.
Qed.

Lemma endswith_iff (s suffix : string) :
  endswith s suffix = true ↔ ∃ stem, s = stem +:+ suffix.
Proof.
  split.
  - intros H. eexists. by apply endswith_split.
  - intros [stem ->]. apply endswith_append.
Qed.

Lemma append_cancel_r (a b suffix : string) :
  a +:+ suffix = b +:+ suffix → a = b.
Proof.
  intros H.
  assert (Hlen : String.length a = String.length b).
  { apply (f_equal String.length) in H. rewrite !length_append in H. lia. }
  rewrite <- (string_take_append a suffix), H, Hlen.
  apply string_take_append.
Qed.

Lemma output_filename_length args :
  String.length (output_filename args)
  = (String.length (microstructure_filename args) - 4)
    + match info args with None => 0 | Some tag => 1 + String.length tag end
    + 13.
Proof.
  unfold output_filename, slice_to_neg.
  rewrite !length_append, length_string_take.
  destruct (info args) as [tag |]; simpl; rewrite ?length_append; simpl; lia.
Qed.

Lemma output_filename_fresh args :
  output_filename args ≠ microstructure_filename args.
Proof.
  intros H. apply (f_equal String.length) in H.
  rewrite output_filename_length in H.
  destruct (info args); lia.
Qed.

(** ** Runs of the entry point *)

Section MainRuns.

Variable gaussian_filter : np.ndarray → Q → boundary_mode → np.ndarray.
Variable npy : Type.
Variable from_npy : npy → bool → res Microstructure.
Variable to_npy : Microstructure → npy.

Local Abbreviation run := (main gaussian_filter npy from_npy to_npy).

Lemma main_success_inv args (fs fs' : gmap string npy) :
  run args fs = (fs', inr tt) →
  ∃ content ms ms_smoothed,
    fs !! microstructure_filename args = Some content
    ∧ endswith (microstructure_filename args) ".npy" = true
    ∧ from_npy content true = inr ms
    ∧ smooth gaussian_filter ms "gaussian" 1 = (ms_smoothed, inr tt)
    ∧ fs' = <[output_filename args := to_npy ms_smoothed]> fs.
Proof.
  unfold main, st_get, st_lift, st_put, st_raise.
  unfold mbind, st_mbind, st_bind.
  destruct (fs !! microstructure_filename args) as [content |] eqn:Hfile;
    [| done].
  destruct (endswith (microstructure_filename args) ".npy") eqn:Hends; simpl;
    [| done].
  destruct (from_npy content true) as [e | ms] eqn:Hload; [done |].
  destruct (smooth gaussian_filter ms "gaussian" 1)
    as [ms_smoothed [e | []]] eqn:Hs; [done |].
  intros [= <-]. by exists content, ms, ms_smoothed.
Qed.

Lemma main_success_intro args (fs : gmap string npy) content ms ms_smoothed :
  fs !! microstructure_filename args = Some content →
  endswith (microstructure_filename args) ".npy" = true →
  from_npy content true = inr ms →
  smooth gaussian_filter ms "gaussian" 1 = (ms_smoothed, inr tt) →
  run args fs = (<[output_filename args := to_npy ms_smoothed]> fs, inr tt).
Proof.
  intros Hfile Hends Hload Hs.
  unfold main, st_get, st_lift, st_put.
  unfold mbind, st_mbind, st_bind. by rewrite Hfile, Hends, Hload, Hs.
Qed.

Lemma main_failure_state args (fs : gmap string npy) e :
  (run args fs).2 = inl e → (run args fs).1 = fs.
Proof.
  unfold main, st_get, st_lift, st_put, st_raise.
  unfold mbind, st_mbind, st_bind.
  destruct (fs !! microstructure_filename args) as [content |]; [| done].
  destruct (endswith (microstructure_filename args) ".npy"); simpl; [| done].
  destruct (from_npy content true) as [e' | ms]; [done |].
  by destruct (smooth gaussian_filter ms "gaussian" 1) as [ms_smoothed [e' | []]].
Qed.

End MainRuns.

(** X1. A name that is not in the file system is refused, whatever its
    extension is, and nothing is written. *)
Theorem main_rejects_missing_file gaussian_filter (npy : Type)
    (from_npy : npy → bool → res Microstructure)
    (to_npy : Microstructure → npy) (args : Namespace)
    (fs : gmap string npy) :
  fs !! microstructure_filename args = None →
  main gaussian_filter npy from_npy to_npy args fs
  = (fs, inl (ValueError ("Given file " +:+ microstructure_filename args
                            +:+ " does not exist!"))).
Proof.
  intros Hfile. unfold main, st_get, st_raise.
  unfold mbind, st_mbind, st_bind. by rewrite Hfile.
Qed.

Lemma main_rejects_missing_file_witness :
  main periodic.gaussian_filter encoded periodic.from_npy periodic.to_npy
       periodic.args_missing periodic.mixed_files
  = (periodic.mixed_files,
     inl (ValueError "Given file absent.txt does not exist!")).
Proof.
  apply (main_rejects_missing_file periodic.gaussian_filter encoded
           periodic.from_npy periodic.to_npy periodic.args_missing
           periodic.mixed_files).
  reflexivity.
Defined.

(** X2. An existing file whose name is not some stem followed by [.npy] is
    refused before it is loaded, and nothing is written. *)
Theorem main_rejects_other_extension gaussian_filter (npy : Type)
    (from_npy : npy → bool → res Microstructure)
    (to_npy : Microstructure → npy) (args : Namespace)
    (fs : gmap string npy) :
  is_Some (fs !! microstructure_filename args) →
  (∀ stem, microstructure_filename args ≠ stem +:+ ".npy") →
  main gaussian_filter npy from_npy to_npy args fs
  = (fs, inl (ValueError ("Given file " +:+ microstructure_filename args
                            +:+ " should be a .npy-file!"))).
Proof.
  intros [content Hfile] Hext.
  assert (Hends : endswith (microstructure_filename args) ".npy" = false).
  { destruct (endswith (microstructure_filename args) ".npy") eqn:He; [| done].
    apply endswith_iff in He as [stem Hstem]. by destruct (Hext stem). }
  unfold main, st_get, st_raise.
  unfold mbind, st_mbind, st_bind. by rewrite Hfile, Hends.
Qed.

Lemma main_rejects_other_extension_witness :
  main periodic.gaussian_filter encoded periodic.from_npy periodic.to_npy
       periodic.args_notes periodic.mixed_files
  = (periodic.mixed_files,
     inl (ValueError "Given file notes.txt should be a .npy-file!")).
Proof.
  apply (main_rejects_other_extension periodic.gaussian_filter encoded
           periodic.from_npy periodic.to_npy periodic.args_notes
           periodic.mixed_files).
  - eexists. reflexivity.
  - intros stem Hstem.
    assert (H : endswith "notes.txt" ".npy" = true)
      by (apply endswith_iff; by exists stem).
    discriminate H.
Defined.

(** X3. Whenever the entry point ends in an exception, whichever step
    raised it, the file system is as it was: no output is written. *)
Theorem main_failure_writes_nothing gaussian_filter (npy : Type)
    (from_npy : npy → bool → res Microstructure)
    (to_npy : Microstructure → npy) (args : Namespace)
    (fs : gmap string npy) (e : exn) :
  (main gaussian_filter npy from_npy to_npy args fs).2 = inl e →
  (main gaussian_filter npy from_npy to_npy args fs).1 = fs.
Proof. apply main_failure_state. Qed.

Lemma main_failure_writes_nothing_witness :
  (main periodic.gaussian_filter encoded periodic.from_npy_unlabelled
        periodic.to_npy periodic.args periodic.files).2
  = inl AssertionError
  ∧ (main periodic.gaussian_filter encoded periodic.from_npy_unlabelled
          periodic.to_npy periodic.args periodic.files).1
    = periodic.files.
Proof.
  split; [reflexivity |].
  apply (main_failure_writes_nothing periodic.gaussian_filter encoded
           periodic.from_npy_unlabelled periodic.to_npy periodic.args
           periodic.files AssertionError).
  reflexivity.
Defined.

(** X4. A successful run changes the file system at the output name only;
    in particular the input file keeps its content. *)
Theorem main_changes_only_output_file gaussian_filter (npy : Type)
    (from_npy : npy → bool → res Microstructure)
    (to_npy : Microstructure → npy) (args : Namespace)
    (fs fs' : gmap string npy) :
  main gaussian_filter npy from_npy to_npy args fs = (fs', inr tt) →
  (∀ name, name ≠ output_filename args → fs' !! name = fs !! name)
  ∧ fs' !! microstructure_filename args = fs !! microstructure_filename args
  ∧ is_Some (fs' !! output_filename args).
Proof.
  intros Hrun.
  apply main_success_inv in Hrun
    as (content & ms & ms_smoothed & _ & _ & _ & _ & ->).
  split_and!.
  - intros name Hname. by rewrite lookup_insert_ne.
  - rewrite lookup_insert_ne; [done |]. apply output_filename_fresh.
  - rewrite lookup_insert_eq. by eexists.
Qed.

Lemma main_changes_only_output_file_witness :
  (∀ name, name ≠ output_filename periodic.args →
     (<["block_run1_smoothed.npy" := x periodic.block]> periodic.files) !! name
     = periodic.files !! name)
  ∧ (<["block_run1_smoothed.npy" := x periodic.block]> periodic.files)
      !! "block.npy" = periodic.files !! "block.npy"
  ∧ is_Some ((<["block_run1_smoothed.npy" := x periodic.block]> periodic.files)
               !! output_filename periodic.args).
Proof.
  apply (main_changes_only_output_file periodic.gaussian_filter encoded
           periodic.from_npy periodic.to_npy periodic.args periodic.files).
  vm_compute. reflexivity.
Defined.

(** X5. Running the entry point again with the same arguments on the file
    system it produced succeeds and changes nothing. *)
Theorem main_rerun_is_stable gaussian_filter (npy : Type)
    (from_npy : npy → bool → res Microstructure)
    (to_npy : Microstructure → npy) (args : Namespace)
    (fs fs' : gmap string npy) :
  main gaussian_filter npy from_npy to_npy args fs = (fs', inr tt) →
  main gaussian_filter npy from_npy to_npy args fs' = (fs', inr tt).
Proof.
  intros Hrun.
  apply main_success_inv in Hrun
    as (content & ms & ms_smoothed & Hfile & Hends & Hload & Hs & ->).
  rewrite (main_success_intro gaussian_filter npy from_npy to_npy args _
             content ms ms_smoothed); [| | done | done | done].
  - by rewrite insert_insert_eq.
  - rewrite lookup_insert_ne; [done |]. apply output_filename_fresh.
Qed.

Lemma main_rerun_is_stable_witness :
  main periodic.gaussian_filter encoded periodic.from_npy periodic.to_npy
       periodic.args
       (<["block_run1_smoothed.npy" := x periodic.block]> periodic.files)
  = (<["block_run1_smoothed.npy" := x periodic.block]> periodic.files, inr tt).
Proof.
  apply (main_rerun_is_stable periodic.gaussian_filter encoded
           periodic.from_npy periodic.to_npy periodic.args periodic.files).
  vm_compute. reflexivity.
Defined.

(** X6. The output name ends in [.npy], so it passes the extension check of
    the entry point itself, and it is never the input name. *)
Theorem output_filename_accepted (args : Namespace) :
  endswith (output_filename args) ".npy" = true
  ∧ output_filename args ≠ microstructure_filename args.
Proof.
  split; [| apply output_filename_fresh].
  apply endswith_iff. unfold output_filename.
  exists (slice_to_neg 4 (microstructure_filename args)
            +:+ match info args with None => "" | Some tag => "_" +:+ tag end
            +:+ "_smoothed").
  by rewrite !append_assoc.
Qed.

(** X7. For one input name, different info tags (or a tag and no tag) give
    different output names. *)
Theorem output_filename_separates_tags (filename : string)
    (method method' : string) (strength strength' : Q + string)
    (tag tag' : option string) :
  tag ≠ tag' →
  output_filename (MkNamespace filename method strength tag)
  ≠ output_filename (MkNamespace filename method' strength' tag').
Proof.
  intros Hne Heq. apply Hne. unfold output_filename in Heq. simpl in Heq.
  apply (inj (String.append _)) in Heq. apply append_cancel_r in Heq.
  destruct tag as [t |], tag' as [t' |]; rewrite ?append_cons in Heq;
    simplify_eq; done.
Qed.

Lemma output_filename_separates_tags_witness :
  output_filename (MkNamespace "block.npy" "gaussian" (inl 1%Q) (Some "a"))
  ≠ output_filename (MkNamespace "block.npy" "median" (inr "2") None).
Proof.
  apply (output_filename_separates_tags "block.npy" "gaussian" "median"
           (inl 1%Q) (inr "2") (Some "a") None).
  discriminate.
Defined.

(** ** Edge cases of the smoother *)

(** X8. On an encoding without any phase, [smooth] enters the scope, raises
    [ValueError] at the argmax of the empty vector of volume fractions and
    leaves the encoding as it was. *)
Theorem smooth_without_phases_axis gaussian_filter microstructure strength :
  has_phases microstructure = true →
  n_phases (x microstructure) = 0 →
  ∃ msg after,
    smooth gaussian_filter microstructure "gaussian" strength
    = (after, inl (ValueError msg))
    ∧ x after = x microstructure.
Proof.
  intros Hph HP. unfold smooth. rewrite Hph.
  unfold mbind, st_mbind, st_bind, mret, st_mret, st_ret.
  rewrite decide_True by done.
  unfold use_multiphase_encoding, _smooth_multiphase, numpy0, st_get, st_lift.
  unfold mbind, st_mbind, st_bind, volume_fractions. rewrite HP. simpl.
  by eexists _, _.
Qed.

Lemma smooth_without_phases_axis_witness :
  ∃ msg after,
    smooth periodic.gaussian_filter periodic.phaseless "gaussian" 1
    = (after, inl (ValueError msg))
    ∧ x after = x periodic.phaseless.
Proof.
  apply (smooth_without_phases_axis periodic.gaussian_filter
                                    periodic.phaseless 1).
  - reflexivity.
  - reflexivity.
Defined.

(** X9. With a single phase the filter is never applied: whatever the
    filter, the strength and the values of the input are, the encoding
    written back is one at every location. *)
Theorem smooth_single_phase gaussian_filter microstructure strength :
  has_phases microstructure = true →
  wf_encoded (x microstructure) →
  n_phases (x microstructure) = 1 →
  ∃ smoothed,
    smooth gaussian_filter microstructure "gaussian" strength
    = (smoothed, inr tt)
    ∧ x smoothed
      = Encoded (spatial (x microstructure)) 1
                (replicate (length (cells (x microstructure))) [1%Q]).
Proof.
  intros Hph [Hlen _] HP. unfold smooth. rewrite Hph.
  unfold mbind, st_mbind, st_bind, mret, st_mret, st_ret.
  rewrite decide_True by done.
  unfold use_multiphase_encoding, _smooth_multiphase, numpy0, assign.
  unfold st_get, st_put, st_lift, mbind, st_mbind, st_bind.
  unfold volume_fractions, spatial_shape, zeros_like, np.ones.
  rewrite HP, <- Hlen. simpl.
  unfold set_phase. simpl.
  rewrite decide_True by (by rewrite !length_replicate).
  eexists. split; [done |]. simpl. f_equal.
  rewrite <- !tabulate_const, tabulate_zip. by apply tabulate_ext.
Qed.

Lemma smooth_single_phase_witness :
  ∃ smoothed,
    smooth periodic.gaussian_filter periodic.single "gaussian" (7 # 2)
    = (smoothed, inr tt)
    ∧ x smoothed = Encoded [3] 1 [[1]; [1]; [1]]%Q.
Proof.
  apply (smooth_single_phase periodic.gaussian_filter periodic.single (7 # 2)).
  - reflexivity.
  - split; [reflexivity | repeat constructor].
  - reflexivity.
Defined.



(** X11. When the library filter returns values between -1/2 and 3/2, as a
    blur of an indicator field does, every entry of [gaussian_smoothing] is
    0 or 1. *)
Theorem gaussian_smoothing_binary gaussian_filter field strength :
  Forall (λ v, (-(1 # 2) < v)%Q ∧ (v < 3 # 2)%Q)
         (np.data (gaussian_filter field strength Wrap)) →
  Forall (λ v, v = 0%Q ∨ v = 1%Q)
         (np.data (gaussian_smoothing gaussian_filter field strength)).
Proof.
  intros Hrange. unfold gaussian_smoothing, np.round. simpl.
  apply Forall_fmap. eapply Forall_impl; [exact Hrange |].
  intros v [Hlo Hhi]. simpl.
  destruct (round1_integer v) as [z Hz].
  pose proof (round1_half v) as Hhalf. rewrite Hz in *.
  apply Qabs_Qle_condition in Hhalf as [H1 H2].
  assert (Hz0 : (-1 < z)%Z).
  { rewrite Zlt_Qlt. change (inject_Z (-1)) with (-1%Q)%Q. lra. }
  assert (Hz2 : (z < 2)%Z).
  { rewrite Zlt_Qlt. change (inject_Z 2) with 2%Q. lra. }
  assert (Hcase : z = 0%Z ∨ z = 1%Z) by lia.
  destruct Hcase as [-> | ->]; [by left | by right].
Qed.

Lemma gaussian_smoothing_binary_witness :
  Forall (λ v, v = 0%Q ∨ v = 1%Q)
         (np.data (gaussian_smoothing periodic.gaussian_filter
                     (get_phase (x periodic.block) 0) 1)).
Proof.
  apply (gaussian_smoothing_binary periodic.gaussian_filter
           (get_phase (x periodic.block) 0) 1).
  vm_compute. repeat constructor; discriminate.
Defined.

(** X12. The result of [smooth] can be smoothed again: a second run on the
    object the first one returned completes as well and conserves the sum
    across the phases. *)
Theorem smooth_twice gaussian_filter microstructure strength strength' :
  shape_preserving gaussian_filter →
  has_phases microstructure = true →
  wf_encoded (x microstructure) →
  0 < n_phases (x microstructure) →
  ∃ once twice,
    smooth gaussian_filter microstructure "gaussian" strength
    = (once, inr tt)
    ∧ smooth gaussian_filter once "gaussian" strength' = (twice, inr tt)
    ∧ spatial (x twice) = spatial (x microstructure)
    ∧ n_phases (x twice) = n_phases (x microstructure)
    ∧ conserved (x twice).
Proof.
  intros Hgf Hph Hwf HP.
  destruct (smooth_gaussian_run gaussian_filter microstructure strength)
    as (l1 & _ & _ & Hrun1); [done .. |].
  eexists. 
  destruct (smooth_gaussian_run gaussian_filter
              (MkMicrostructure true
                 (reconstruct (gaussian_smoothing gaussian_filter) strength
                              (x microstructure) l1)
                 ((history microstructure ++ [ScopeEntered]) ++ [ScopeExited]))
              strength')
    as (l2 & _ & Hfm2 & Hrun2); [done | done | by apply reconstruct_wf | done |].
  eexists. split_and!; [exact Hrun1 | exact Hrun2 | done | done |].
  simpl. apply reconstruct_conserved.
  apply first_maximum_lt in Hfm2. by rewrite volume_fractions_length in Hfm2.
Qed.

Lemma smooth_twice_witness :
  ∃ once twice,
    smooth periodic.gaussian_filter periodic.strip "gaussian" 1
    = (once, inr tt)
    ∧ smooth periodic.gaussian_filter once "gaussian" 2 = (twice, inr tt)
    ∧ spatial (x twice) = spatial (x periodic.strip)
    ∧ n_phases (x twice) = n_phases (x periodic.strip)
    ∧ conserved (x twice).
Proof.
  apply (smooth_twice periodic.gaussian_filter periodic.strip 1 2).
  - exact periodic_shape_preserving.
  - reflexivity.
  - split; [reflexivity | repeat constructor].
  - simpl. lia.
Defined.
